(** * Tab Memory: offline event queue, sync protocol and ingestion endpoint

    A shallow embedding of the TypeScript sources of the tab-memory
    repository:

    - [shared/utils/url]            (redactSensitiveUrl, shouldIgnoreUrl)
    - [shared/types]                (DEFAULT_CLUSTERING_WEIGHTS, PROMOTION_THRESHOLD)
    - [extension/background/storage-manager.ts]
    - [extension/background/api-client.ts]
    - [extension/background/tab-event-handler.ts]
    - [api/middleware/auth.ts], [api/db/*], [api/routes/events.ts]

    JavaScript numbers that hold ids, counts and instants are integers [Z];
    strings are [string]; arrays are lists; the [Record<number, TabInfo>]
    side table is a [gmap Z TabInfo].  Values the code draws from its
    environment (Date.now, Math.random, the network, the database server)
    are explicit arguments of the functions that use them. *)

From Stdlib Require Import List String Ascii ZArith Lia Bool Arith.
From stdpp Require Import gmap.
Import ListNotations.

Local Open Scope string_scope.
Local Open Scope list_scope.

(** ** JavaScript helpers *)

Module Js.

(** Truthiness of a string, of an optional string and of a number. *)
Definition truthy_string (s : string) : bool := negb (String.eqb s "").

Definition truthy_opt (o : option string) : bool :=
  match o with
  | Some s => truthy_string s
  | None => false
  end.

Definition truthy_num (z : Z) : bool := negb (Z.eqb z 0).

(** [a || b] on strings. *)
Definition or_string (o : option string) (d : string) : string :=
  match o with
  | Some s => if truthy_string s then s else d
  | None => d
  end.

(** [Array.prototype.includes] on an array of strings. *)
Definition includes (l : list string) (x : string) : bool :=
  existsb (String.eqb x) l.

(** [Array.prototype.slice(i, j)] with [0 <= i <= j]. *)
Definition slice {A} (i j : nat) (l : list A) : list A :=
  firstn (j - i) (skipn i l).

(** [Array.prototype.slice(-n)]: the last [n] elements. *)
Definition slice_last {A} (n : nat) (l : list A) : list A :=
  skipn (length l - n) l.

(** [String.prototype.startsWith]. *)
Definition startsWith (s p : string) : bool := String.prefix p s.

End Js.

(** ** shared/utils/url *)

Module Url.

(** *** URLSearchParams: an ordered list of name/value pairs *)

Definition Params := list (string * string).

Definition named (name : string) (p : string * string) : bool :=
  String.eqb (fst p) name.

(** [searchParams.has(name)] *)
Definition has (l : Params) (name : string) : bool :=
  existsb (named name) l.

(** [searchParams.set(name, value)]: the first pair called [name] gets
    the value, the other pairs with that name are removed; when there is
    none the pair is appended. *)
Fixpoint set (l : Params) (name value : string) : Params :=
  match l with
  | [] => [(name, value)]
  | (n, v) :: t =>
      if String.eqb n name
      then (n, value) :: List.filter (fun p => negb (named name p)) t
      else (n, v) :: set t name value
  end.

Definition sensitiveParams : list string :=
  [ "token"; "access_token"; "auth_token"; "api_key"; "apikey";
    "key"; "secret"; "password"; "pwd"; "pass";
    "session"; "sessionid"; "session_id"; "sid";
    "oauth"; "oauth_token"; "oauth_signature";
    "code"; "auth_code"; "authorization_code";
    "client_secret"; "refresh_token";
    "jwt"; "bearer" ].

Definition REDACTED : string := "[REDACTED]".

(** One turn of the loop of [redactSensitiveUrl], on the pair list. *)
Definition redactParam (l : Params) (param : string) : Params :=
  if has l param then set l param REDACTED else l.

Definition redactParams (names : list string) (l : Params) : Params :=
  fold_left redactParam names l.

(** The pairs called [p] are none, or one that is already redacted. *)
Definition settled (p : string) (l : Params) : Prop :=
  List.filter (named p) l = [] \/ List.filter (named p) l = [(p, REDACTED)].

(** *** The URL class of the platform

    [new URL(s)], [toString()] and the link between a URL object and its
    [searchParams] belong to the JavaScript runtime.  They are the
    variables of this section; [redactSensitiveUrl] is written over
    them as the source is. *)
Section Redact.

Variable URL : Type.
(** [new URL(s)]; [None] when the constructor throws. *)
Variable parseURL : string -> option URL.
(** [urlObj.toString()] *)
Variable href : URL -> string.
(** the list held by [urlObj.searchParams] *)
Variable searchParams : URL -> Params.
(** the update steps of URLSearchParams: the query of the URL becomes
    the serialization of the list *)
Variable updateQuery : URL -> Params -> URL.

Definition searchParams_set (u : URL) (name value : string) : URL :=
  updateQuery u (set (searchParams u) name value).

Definition redactStep (urlObj : URL) (param : string) : URL :=
  if has (searchParams urlObj) param
  then searchParams_set urlObj param REDACTED
  else urlObj.

Definition redactSensitiveUrl (url : string) : string :=
  match parseURL url with
  | Some urlObj => href (fold_left redactStep sensitiveParams urlObj)
  | None => url
  end.

End Redact.

(** *** shouldIgnoreUrl *)

Definition ignoredPrefixes : list string :=
  [ "chrome://"; "chrome-extension://"; "edge://"; "about:";
    "moz-extension://"; "safari-extension://"; "data:"; "javascript:" ].

Definition shouldIgnoreUrl (url : string) : bool :=
  existsb (fun prefix => Js.startsWith url prefix) ignoredPrefixes.

(** *** A small URL class

    URLs that consist of a query only, written one tagged character at a
    time: [n] before a character of a name, [v] before a character of a
    value, [;] after each pair.  It is an instance of the variables of
    [Redact] on which [redactSensitiveUrl] can be run. *)

Module QueryUrl.

Fixpoint tag (t : ascii) (s : string) : string :=
  match s with
  | EmptyString => EmptyString
  | String c rest => String t (String c (tag t rest))
  end.

Fixpoint href (l : Params) : string :=
  match l with
  | [] => EmptyString
  | (name, value) :: rest =>
      tag "n" name ++ tag "v" value ++ String ";" (href rest)
  end.

(** [name] and [value] are the pair being read, [acc] the pairs read so
    far, last first. *)
Fixpoint parse (s : string) (name value : string) (acc : Params)
  : option Params :=
  match s with
  | EmptyString =>
      match name, value with
      | EmptyString, EmptyString => Some (rev acc)
      | _, _ => None
      end
  | String t rest =>
      if Ascii.eqb t ";"
      then parse rest EmptyString EmptyString ((name, value) :: acc)
      else
        match rest with
        | String c rest' =>
            if Ascii.eqb t "n"
            then parse rest' (name ++ String c EmptyString) value acc
            else if Ascii.eqb t "v"
            then parse rest' name (value ++ String c EmptyString) acc
            else None
        | EmptyString => None
        end
  end.

Definition parseURL (s : string) : option Params :=
  parse s EmptyString EmptyString [].

Definition searchParams (u : Params) : Params := u.

Definition updateQuery (u l : Params) : Params := l.

Definition redactSensitiveUrl : string -> string :=
  Url.redactSensitiveUrl Params parseURL href searchParams updateQuery.

End QueryUrl.

End Url.

(** ** shared/types: events and the clustering configuration *)

Module Types.

Inductive EventType := EvOpen | EvUpdate | EvActivate | EvClose.

(** [Omit<Event, 'id' | 'user_id'>]; [ts] is the instant in milliseconds. *)
Record Event := mkEvent {
  window_id : Z;
  tab_id : Z;
  type : EventType;
  title : string;
  url : string;
  ts : Z
}.

(** [Omit<Event, 'id' | 'user_id'> & { localId: string }] *)
Record LocalEvent := mkLocalEvent {
  localId : string;
  payload : Event
}.

Record ExtensionConfig := mkConfig {
  api_base_url : string;
  enable_screenshots : bool;
  clustering_threshold : Z;
  max_sessions_per_user : Z;
  session_timeout_minutes : Z
}.

(** [ClusteringScore]: one contribution per signal and their total. *)
Record ClusteringScore := mkScore {
  semantic_shift_below_0_6 : Z;
  majority_shift_over_50pct : Z;
  idle_gap_over_20m : Z;
  new_window_boundary : Z;
  persistence_over_2_snapshots_or_3_tabs : Z;
  total : Z
}.

(** The type of the [DEFAULT_CLUSTERING_WEIGHTS] object: one weight per
    signal, under the keys of [ClusteringScore]. *)
Module Weights.
Record t := mk {
  semantic_shift_below_0_6 : Z;
  majority_shift_over_50pct : Z;
  idle_gap_over_20m : Z;
  new_window_boundary : Z;
  persistence_over_2_snapshots_or_3_tabs : Z
}.
End Weights.

Definition DEFAULT_CLUSTERING_WEIGHTS : Weights.t :=
  {| Weights.semantic_shift_below_0_6 := 3;
     Weights.majority_shift_over_50pct := 2;
     Weights.idle_gap_over_20m := 1;
     Weights.new_window_boundary := 3;
     Weights.persistence_over_2_snapshots_or_3_tabs := 2 |}.

Definition PROMOTION_THRESHOLD : Z := 5.

(** The five boundary signals of a snapshot comparison. *)
Record Signals := mkSignals {
  semantic_shift : bool;
  majority_shift : bool;
  idle_gap : bool;
  new_window : bool;
  persistence : bool
}.

Definition contribution (signal : bool) (weight : Z) : Z :=
  if signal then weight else 0.

(** Modelled from the spec: the scorer itself is not implemented in the
    repository (the weights are a placeholder for a later phase).  Each
    true signal contributes its configured weight and the total is their
    sum. *)
Definition score (w : Weights.t) (s : Signals) : ClusteringScore :=
  let a := contribution (semantic_shift s) (Weights.semantic_shift_below_0_6 w) in
  let b := contribution (majority_shift s) (Weights.majority_shift_over_50pct w) in
  let c := contribution (idle_gap s) (Weights.idle_gap_over_20m w) in
  let d := contribution (new_window s) (Weights.new_window_boundary w) in
  let e := contribution (persistence s)
             (Weights.persistence_over_2_snapshots_or_3_tabs w) in
  {| semantic_shift_below_0_6 := a;
     majority_shift_over_50pct := b;
     idle_gap_over_20m := c;
     new_window_boundary := d;
     persistence_over_2_snapshots_or_3_tabs := e;
     total := a + b + c + d + e |}%Z.

(** Modelled from the spec: a new session is opened when the total reaches
    the promotion threshold. *)
Definition promotes (threshold : Z) (sc : ClusteringScore) : bool :=
  (threshold <=? total sc)%Z.

End Types.

(** ** extension/background/storage-manager.ts *)

Module StorageManager.
Import Types.

Record TabInfo := mkTabInfo {
  ti_title : string;
  ti_url : string;
  lastSeen : Z
}.

Record StoredData := mkStoredData {
  events : list LocalEvent;
  tabInfo : gmap Z TabInfo;
  config : ExtensionConfig;
  lastSync : option Z;
  authToken : option string
}.

(** The content of [chrome.storage.local] under STORAGE_KEY; [None] until
    the first write.  Reads and writes of the browser storage are taken
    to succeed. *)
Definition Storage := option StoredData.

Definition MAX_LOCAL_EVENTS : nat := 1000.

Definition getDefaultConfig : ExtensionConfig :=
  {| api_base_url := "https://api.tabmemory.com";
     enable_screenshots := false;
     clustering_threshold := 5;
     max_sessions_per_user := 100;
     session_timeout_minutes := 30 |}.

Definition getDefaultData : StoredData :=
  {| events := [];
     tabInfo := ∅;
     config := getDefaultConfig;
     lastSync := None;
     authToken := None |}.

Definition getData (st : Storage) : StoredData :=
  match st with
  | Some data => data
  | None => getDefaultData
  end.

Definition setData (data : StoredData) : Storage := Some data.

(** [storeEvent(event)]; [lid] is the value of [generateLocalId()]. *)
Definition storeEvent (event : Event) (lid : string) (st : Storage) : Storage :=
  let data := getData st in
  let eventWithId := {| localId := lid; payload := event |} in
  let pushed := events data ++ [eventWithId] in
  let info :=
    if Js.truthy_num (tab_id event) && Js.truthy_string (url event)
       && Js.truthy_string (title event)
    then <[ tab_id event :=
              {| ti_title := title event; ti_url := url event;
                 lastSeen := ts event |} ]> (tabInfo data)
    else tabInfo data in
  let kept :=
    if Nat.ltb MAX_LOCAL_EVENTS (length pushed)
    then Js.slice_last MAX_LOCAL_EVENTS pushed
    else pushed in
  setData {| events := kept; tabInfo := info; config := config data;
             lastSync := lastSync data; authToken := authToken data |}.

Definition getTabInfo (tabId : Z) (st : Storage) : option TabInfo :=
  tabInfo (getData st) !! tabId.

Definition removeTabInfo (tabId : Z) (st : Storage) : Storage :=
  let data := getData st in
  setData {| events := events data; tabInfo := delete tabId (tabInfo data);
             config := config data; lastSync := lastSync data;
             authToken := authToken data |}.

Definition getPendingEvents (st : Storage) : list LocalEvent :=
  events (getData st).

(** [markEventsSynced(localIds)]; [now] is the instant of [new Date()]. *)
Definition markEventsSynced (localIds : list string) (now : Z) (st : Storage)
  : Storage :=
  let data := getData st in
  setData {| events :=
               List.filter (fun event => negb (Js.includes localIds (localId event)))
                 (events data);
             tabInfo := tabInfo data; config := config data;
             lastSync := Some now; authToken := authToken data |}.

Definition getAuthToken (st : Storage) : option string :=
  authToken (getData st).

(** A run of appends: each event comes with the local id generated for it. *)
Definition storeEvents (appends : list (Event * string)) (st : Storage) : Storage :=
  fold_left (fun s a => storeEvent (fst a) (snd a) s) appends st.

Definition tagged (appends : list (Event * string)) : list LocalEvent :=
  map (fun a => {| localId := snd a; payload := fst a |}) appends.

(** *** Calls of [storeEvent] that overlap

    [storeEvent] is [async]: at [await this.getData()] it receives a copy
    of the whole stored object, and at [await this.setData(data)] it
    writes back the object it made from that copy.  Nothing orders the
    two steps of one call with those of another, and the listeners of
    the tab events do not await their handlers, so a call may read before
    an earlier call has written. *)

(** What [storeEvent] does between its two awaits with the data it read. *)
Definition storeEventBody (event : Event) (lid : string) (data : StoredData)
  : StoredData :=
  let eventWithId := {| localId := lid; payload := event |} in
  let pushed := events data ++ [eventWithId] in
  let info :=
    if Js.truthy_num (tab_id event) && Js.truthy_string (url event)
       && Js.truthy_string (title event)
    then <[ tab_id event :=
              {| ti_title := title event; ti_url := url event;
                 lastSeen := ts event |} ]> (tabInfo data)
    else tabInfo data in
  let kept :=
    if Nat.ltb MAX_LOCAL_EVENTS (length pushed)
    then Js.slice_last MAX_LOCAL_EVENTS pushed
    else pushed in
  {| events := kept; tabInfo := info; config := config data;
     lastSync := lastSync data; authToken := authToken data |}.

(** The two steps of the call number [call]: its read resolves, its write
    is made. *)
Inductive Op :=
| Read (call : nat)
| Write (call : nat).

(** The browser storage and, for each call that has read and not yet
    written, the data it holds. *)
Record Overlapping := mkOverlapping {
  stored : Storage;
  held : gmap nat StoredData
}.

(** One step; [calls] lists the event and the generated local id of each
    call.  A write of a call that holds no data does not occur in the
    schedules considered and is modelled as no step. *)
Definition stepOp (calls : list (Event * string)) (op : Op) (r : Overlapping)
  : Overlapping :=
  match op with
  | Read call =>
      {| stored := stored r;
         held := <[ call := getData (stored r) ]> (held r) |}
  | Write call =>
      match held r !! call, calls !! call with
      | Some data, Some (event, lid) =>
          {| stored := setData (storeEventBody event lid data);
             held := delete call (held r) |}
      | _, _ => r
      end
  end.

Definition runOps (calls : list (Event * string)) (ops : list Op)
    (r : Overlapping) : Overlapping :=
  fold_left (fun r' op => stepOp calls op r') ops r.

Definition reads (ops : list Op) : list nat :=
  flat_map (fun op => match op with Read call => [call] | Write _ => [] end) ops.

Definition writes (ops : list Op) : list nat :=
  flat_map (fun op => match op with Write call => [call] | Read _ => [] end) ops.

(** Every write of [ops] comes after the read of its call. *)
Fixpoint readBeforeWrite (started : list nat) (ops : list Op) : bool :=
  match ops with
  | [] => true
  | Read call :: rest => readBeforeWrite (call :: started) rest
  | Write call :: rest =>
      existsb (Nat.eqb call) started && readBeforeWrite started rest
  end.

(** A schedule of [n] appends made one after the other: the calls read in
    the order they are made and write in that order, each once and after
    its read. *)
Definition inOrder (n : nat) (ops : list Op) : Prop :=
  reads ops = seq 0 n /\ writes ops = seq 0 n
  /\ readBeforeWrite [] ops = true.

(** The schedule in which each call has written before the next reads. *)
Definition serialFrom (first n : nat) : list Op :=
  flat_map (fun call => [Read call; Write call]) (seq first n).

Definition serial (n : nat) : list Op := serialFrom 0 n.

(** A fresh installation with no call under way. *)
Definition idle (st : Storage) : Overlapping :=
  {| stored := st; held := ∅ |}.

End StorageManager.

(** ** extension/background/api-client.ts *)

Module ApiClient.
Import Types.

(** The part of a fetch [Response] that [handleResponse] looks at:
    [response.ok], and whether [response.json()] resolves. *)
Record Response := mkResponse {
  ok : bool;
  json_parses : bool
}.

Record ApiResponse := mkApiResponse {
  success : bool
}.

(** [handleResponse]: a body that does not parse and a status outside
    2xx both give [success: false]; neither throws. *)
Definition handleResponse (response : Response) : ApiResponse :=
  if json_parses response
  then if negb (ok response)
       then {| success := false |}
       else {| success := true |}
  else {| success := false |}.

(** The network seen by one sync cycle: the outcome of its k-th POST,
    [None] when [fetch] rejects (the [await] throws). *)
Definition Network := nat -> option Response.

(** [post(endpoint, data)] for the k-th request of the cycle *)
Definition post (net : Network) (k : nat) : option ApiResponse :=
  match net k with
  | Some response => Some (handleResponse response)
  | None => None
  end.

Record Client := mkClient {
  baseUrl : string;
  authToken : option string;
  eventQueue : list LocalEvent;
  syncInProgress : bool;
  (** whether the constructor was given a StorageManager *)
  storageManager : bool
}.

(** The extension: the browser storage and the API client object. *)
Record System := mkSystem {
  storage : StorageManager.Storage;
  api : Client
}.

Definition batchSize : nat := 50.

(** [queueEvent]: the flag tells whether the queue reached 10 entries and
    [syncPendingEvents()] was started (it is not awaited; the cycle it
    starts is a later step of the system). *)
Definition queueEvent (event : LocalEvent) (c : Client) : Client * bool :=
  let queue := eventQueue c ++ [event] in
  ({| baseUrl := baseUrl c; authToken := authToken c; eventQueue := queue;
      syncInProgress := syncInProgress c;
      storageManager := storageManager c |},
   Nat.leb 10 (length queue)).

(** The batch loop of [syncPendingEvents].  [i] is the loop index, [call]
    the number of POSTs made so far; the result is [syncedLocalIds] and
    the bodies of the POSTs attempted, in order. *)
Fixpoint batchLoop (net : Network) (allEvents : list LocalEvent)
    (fuel i call : nat) (syncedLocalIds : list string)
    (sent : list (list Event)) : list string * list (list Event) :=
  match fuel with
  | O => (syncedLocalIds, sent)
  | S fuel' =>
      if Nat.ltb i (length allEvents) then
        let batch := Js.slice i (i + batchSize) allEvents in
        let sent' := sent ++ [map payload batch] in
        match post net call with
        | Some response =>
            let synced' :=
              if success response
              then syncedLocalIds ++ map localId batch
              else syncedLocalIds in
            batchLoop net allEvents fuel' (i + batchSize) (S call) synced' sent'
        | None => (syncedLocalIds, sent')
        end
      else (syncedLocalIds, sent)
  end.

(** The sequence read at the start of a cycle. *)
Definition allEvents (s : System) : list LocalEvent :=
  let storedEvents :=
    if storageManager (api s)
    then StorageManager.getPendingEvents (storage s)
    else [] in
  storedEvents ++ eventQueue (api s).

Definition setQueue (queue : list LocalEvent) (busy : bool) (c : Client) : Client :=
  {| baseUrl := baseUrl c; authToken := authToken c; eventQueue := queue;
     syncInProgress := busy; storageManager := storageManager c |}.

(** [syncPendingEvents()]: the new state and the POST bodies sent. *)
Definition syncPendingEvents (net : Network) (now : Z) (s : System)
  : System * list (list Event) :=
  if syncInProgress (api s) || negb (Js.truthy_opt (authToken (api s)))
  then (s, [])
  else
    let all := allEvents s in
    if Nat.eqb (length all) 0
    then ({| storage := storage s;
             api := setQueue (eventQueue (api s)) false (api s) |}, [])
    else
      let '(syncedLocalIds, sent) :=
        batchLoop net all (length all) 0 0 [] [] in
      let storage' :=
        if Nat.ltb 0 (length syncedLocalIds) && storageManager (api s)
        then StorageManager.markEventsSynced syncedLocalIds now (storage s)
        else storage s in
      let queue' :=
        List.filter
          (fun event => negb (Js.includes syncedLocalIds (localId event)))
          (eventQueue (api s)) in
      ({| storage := storage'; api := setQueue queue' false (api s) |}, sent).

(** Every POST of the cycle is answered with success. *)
Definition accepting (net : Network) : Prop :=
  forall k, exists response,
    net k = Some response /\ success (handleResponse response) = true.

(** No POST of the cycle is answered with success. *)
Definition refusing (net : Network) : Prop :=
  forall k response,
    net k = Some response -> success (handleResponse response) = false.

End ApiClient.

(** ** extension/background/tab-event-handler.ts *)

Module TabEventHandler.
Import Types ApiClient.

(** The fields of [chrome.tabs.Tab] the handler reads. *)
Record Tab := mkTab {
  id : option Z;
  tab_url : option string;
  windowId : Z;
  tab_title : option string
}.

(** What one handler run draws from its environment: the instant of
    [new Date()], the id made by [generateLocalId()] in the store and the
    id made for the queued copy. *)
Record Fresh := mkFresh {
  now : Z;
  storeId : string;
  queueId : string
}.

Section Handler.

(** [redactSensitiveUrl] *)
Variable redact : string -> string.

Definition record (event : Event) (tabToForget : option Z) (f : Fresh)
    (s : System) : System * bool :=
  let stored := StorageManager.storeEvent event (storeId f) (storage s) in
  let storage' :=
    match tabToForget with
    | Some tabId => StorageManager.removeTabInfo tabId stored
    | None => stored
    end in
  let '(api', auto) :=
    queueEvent {| localId := queueId f; payload := event |} (api s) in
  ({| storage := storage'; api := api' |}, auto).

Definition handleTabEvent (tab : Tab) (eventType : EventType) (f : Fresh)
    (s : System) : System * bool :=
  match id tab, tab_url tab with
  | Some tabId, Some u =>
      if negb (Js.truthy_num tabId) || negb (Js.truthy_string u)
         || negb (Js.truthy_num (windowId tab))
      then (s, false)
      else if Url.shouldIgnoreUrl u
      then (s, false)
      else
        record {| window_id := windowId tab;
                  tab_id := tabId;
                  type := eventType;
                  title := Js.or_string (tab_title tab) "Untitled";
                  url := redact u;
                  ts := now f |} None f s
  | _, _ => (s, false)
  end.

Definition handleTabClose (tabId wId : Z) (f : Fresh) (s : System)
  : System * bool :=
  let info := StorageManager.getTabInfo tabId (storage s) in
  record {| window_id := wId;
            tab_id := tabId;
            type := EvClose;
            title := Js.or_string (option_map StorageManager.ti_title info)
                       "Closed Tab";
            url := Js.or_string (option_map StorageManager.ti_url info) "";
            ts := now f |} (Some tabId) f s.

(** The browser events the listeners of [setupListeners] subscribe to.
    [Removed] also names the URL the closed tab was showing: the browser
    does not pass it to the listener, which gets the two ids only. *)
Inductive Activity :=
| Created (tab : Tab)
| Updated (changedUrl changedTitle : option string) (tab : Tab)
| Activated (tab : Tab)
| Removed (tabId wId : Z) (shownUrl : string)
| FocusChanged (focused : Z) (activeTabs : list Tab).

Definition WINDOW_ID_NONE : Z := (-1)%Z.

Definition activityUrl (a : Activity) : option string :=
  match a with
  | Created tab | Updated _ _ tab | Activated tab => tab_url tab
  | Removed _ _ shownUrl => Some shownUrl
  | FocusChanged _ (tab :: _) => tab_url tab
  | FocusChanged _ [] => None
  end.

Definition isClose (a : Activity) : bool :=
  match a with
  | Removed _ _ _ => true
  | _ => false
  end.

Definition listen (a : Activity) (f : Fresh) (s : System) : System * bool :=
  match a with
  | Created tab => handleTabEvent tab EvOpen f s
  | Updated changedUrl changedTitle tab =>
      if Js.truthy_opt changedUrl || Js.truthy_opt changedTitle
      then handleTabEvent tab EvUpdate f s
      else (s, false)
  | Activated tab => handleTabEvent tab EvActivate f s
  | Removed tabId wId _ => handleTabClose tabId wId f s
  | FocusChanged focused activeTabs =>
      if Z.eqb focused WINDOW_ID_NONE
      then (s, false)
      else match activeTabs with
           | tab :: _ => handleTabEvent tab EvActivate f s
           | [] => (s, false)
           end
  end.

End Handler.

(** The URL of an activity is on the ignore list. *)
Definition ignoredActivity (a : Activity) : bool :=
  match activityUrl a with
  | Some u => Url.shouldIgnoreUrl u
  | None => false
  end.

End TabEventHandler.

(** ** Runs of the extension *)

Module Extension.
Import Types StorageManager ApiClient TabEventHandler.

(** What happens to the extension, one thing after the other: a browser
    event reaches its listener, or a sync cycle runs (started by the
    timer or by a full queue). *)
Inductive Step :=
| Capture (a : Activity) (f : Fresh)
| Sync (net : Network) (now : Z).

Section Run.

Variable redact : string -> string.

Definition step (st : Step) (s : System) : System :=
  match st with
  | Capture a f => fst (listen redact a f s)
  | Sync net now => fst (syncPendingEvents net now s)
  end.

Definition run (steps : list Step) (s : System) : System :=
  fold_left (fun s' st => step st s') steps s.

(** [x] is the redaction of a URL that passed the checks of
    [handleTabEvent]. *)
Definition captured (x : string) : Prop :=
  exists u, Js.truthy_string u = true /\ Url.shouldIgnoreUrl u = false
            /\ x = redact u.

(** Every pending or queued event has a title and a URL that is empty or
    captured; every tab snapshot has a title and a captured, non-empty
    URL; the store holds at most 1000 events. *)
Definition sound (s : System) : Prop :=
  (forall e,
     In e (getPendingEvents (storage s)) \/ In e (eventQueue (api s)) ->
     (url (payload e) = EmptyString \/ captured (url (payload e)))
     /\ Js.truthy_string (title (payload e)) = true)
  /\ (forall tabId info,
        getTabInfo tabId (storage s) = Some info ->
        captured (ti_url info)
        /\ Js.truthy_string (ti_url info) = true
        /\ Js.truthy_string (ti_title info) = true)
  /\ length (getPendingEvents (storage s)) <= MAX_LOCAL_EVENTS.

End Run.

End Extension.

(** ** api: configuration, authentication middleware, database, events route *)

Module Api.

Record ProcessEnv := mkEnv {
  JWT_SECRET : option string;
  SUPABASE_URL : option string;
  SUPABASE_SERVICE_ROLE_KEY : option string
}.

(** [AppError(message, statusCode = 500, isOperational = true)] *)
Record AppError := mkAppError {
  message : string;
  statusCode : Z;
  isOperational : bool
}.

(** What a handler can throw: an [AppError], a plain [Error], or an error
    raised by a library. *)
Inductive Thrown :=
| ThrownApp (e : AppError)
| ThrownError (msg : string)
| ThrownByLibrary.

(** *** middleware/validation.ts *)

(** What [validateRequest(schema)] hands to [next] for a body that
    [schema.body] refuses; [detail] is [error.details[0].message]. *)
Definition invalidRequestBody (detail : string) : Thrown :=
  ThrownApp (mkAppError ("Invalid request body: " ++ detail) 400 true).

(** *** db/supabase: the constructor, run when the module is loaded *)


Section Supabase.

(** [createClient(supabaseUrl, supabaseServiceKey, options)] of the
    Supabase library: whether it returns a client; otherwise it throws
    (it refuses a URL it cannot use). *)
Variable createClient : string -> string -> bool.


End Supabase.

(** *** middleware/auth.ts *)

(** The outcome of [jwt.verify]: the decoded [userId] field, or a throw
    with the answers of the two [instanceof] tests of the catch block. *)
Inductive Verified :=
| Decoded (userId : option string)
| VerifyThrew (isJsonWebTokenError isTokenExpiredError : bool).

(** What the middleware hands to [next]. *)
Inductive Next :=
| NextOk (userId : string)
| NextError (e : Thrown).

Section Auth.

(** [jwt.verify(token, secret)] *)
Variable verify : string -> string -> Verified.

Definition authMiddleware (env : ProcessEnv) (authHeader : option string) : Next :=
  match authHeader with
  | None => NextError (ThrownApp (mkAppError "Access token required" 401 true))
  | Some header =>
      if negb (Js.truthy_string header)
         || negb (Js.startsWith header "Bearer ")
      then NextError (ThrownApp (mkAppError "Access token required" 401 true))
      else
        let token := String.substring 7 (String.length header - 7) header in
        match JWT_SECRET env with
        | None =>
            NextError (ThrownApp (mkAppError "JWT secret not configured" 500 false))
        | Some secret =>
            if negb (Js.truthy_string secret)
            then NextError
                   (ThrownApp (mkAppError "JWT secret not configured" 500 false))
            else
              match verify token secret with
              | Decoded (Some userId) =>
                  if Js.truthy_string userId
                  then NextOk userId
                  else NextError
                         (ThrownApp (mkAppError "Invalid token payload" 401 true))
              | Decoded None =>
                  NextError (ThrownApp (mkAppError "Invalid token payload" 401 true))
              | VerifyThrew true _ =>
                  NextError (ThrownApp (mkAppError "Invalid access token" 401 true))
              | VerifyThrew false true =>
                  NextError (ThrownApp (mkAppError "Access token expired" 401 true))
              | VerifyThrew false false => NextError ThrownByLibrary
              end
        end
  end.

End Auth.


(** The error handed on when the signing secret is not configured. *)
Definition missingSecretError : Next :=
  NextError (ThrownApp (mkAppError "JWT secret not configured" 500 false)).

(** *** The server entry point *)






(** *** db: the mock database, the pg connection, the Supabase connection *)

(** A query parameter. *)
Inductive Value :=
| VString (s : string)
| VNumber (z : Z)
| VDate (t : Z)
| VUndefined.

(** [!v] *)
Definition falsy (v : Value) : bool :=
  match v with
  | VString s => negb (Js.truthy_string s)
  | VNumber z => negb (Js.truthy_num z)
  | VDate _ => false
  | VUndefined => true
  end.

(** [MockEvent] *)
Record MockEvent := mkMockEvent {
  ev_id : string;
  user_id : Value;
  window_id : Value;
  tab_id : Value;
  type : Value;
  title : Value;
  url : Value;
  ts : Value;
  created_at : Z
}.

(** The persisted events of the two stores, and the pg session: the rows
    written by the open transaction and the number of calls made to the
    server so far. *)
Record Db := mkDb {
  mock_events : list MockEvent;
  pg_events : list MockEvent;
  pg_txn : list MockEvent;
  pg_calls : nat
}.

(** The statements the events route and the transaction wrapper issue. *)
Inductive Sql :=
| BEGIN
| COMMIT
| ROLLBACK
| INSERT_INTO_events.

(** What the transaction callback is handed as [client]. *)
Inductive DbClient :=
| MockDb
| PoolClient
| SupabaseClient.

(** Which module [db] is. *)
Inductive Connection :=
| DatabaseConnection
| MockDatabase
| SupabaseConnection.

(** A computation over the database that may throw. *)
Definition M (A : Type) : Type := Db -> (Thrown + A) * Db.

Definition ret {A} (a : A) : M A := fun db => (inr a, db).

Definition throw {A} (e : Thrown) : M A := fun db => (inl e, db).

Definition bind {A B} (m : M A) (k : A -> M B) : M B :=
  fun db =>
    match m db with
    | (inr a, db') => k a db'
    | (inl e, db') => (inl e, db')
    end.

(** [try { m } catch (error) { handler error }] *)
Definition try_catch {A} (m : M A) (handler : Thrown -> M A) : M A :=
  fun db =>
    match m db with
    | (inr a, db') => (inr a, db')
    | (inl e, db') => handler e db'
    end.

(** [try { m } finally { cleanup }] where [cleanup] does not throw *)
Definition try_finally {A} (m : M A) (cleanup : Db -> Db) : M A :=
  fun db => let '(r, db') := m db in (r, cleanup db').

Notation "x <- m ;; k" := (bind m (fun x => k))
  (at level 100, m at next level, right associativity).

Fixpoint mapM {A B} (f : A -> M B) (l : list A) : M (list B) :=
  match l with
  | [] => ret []
  | a :: t => b <- f a ;; bs <- mapM f t ;; ret (b :: bs)
  end.

Section Database.

(** Whether the k-th call to the pg server succeeds. *)
Variable pg_ok : nat -> bool.
(** The id given to the n-th row of a table ([generateUUID], [RETURNING id]). *)
Variable uuid : nat -> string.
(** The instant of [new Date()] and [NOW()] during the request. *)
Variable now : Z.

Definition nth_param (params : list Value) (n : nat) : Value :=
  nth n params VUndefined.

(** [MockDatabase.insertEvent] *)
Definition insertEvent (params : list Value) : M MockEvent :=
  fun db =>
    if Nat.ltb (length params) 6
    then (inl (ThrownError "Missing event parameters"), db)
    else
      let event :=
        {| ev_id := uuid (length (mock_events db));
           user_id := nth_param params 0;
           window_id := nth_param params 1;
           tab_id := nth_param params 2;
           type := nth_param params 3;
           title := nth_param params 4;
           url := nth_param params 5;
           ts := if falsy (nth_param params 6)
                 then VDate now
                 else nth_param params 6;
           created_at := now |} in
      (inr event,
       {| mock_events := mock_events db ++ [event];
          pg_events := pg_events db; pg_txn := pg_txn db;
          pg_calls := pg_calls db |}).

(** [MockDatabase.query]: of the statements above only the insert is
    recognised; the others get the empty result. *)
Definition mock_query (text : Sql) (params : list Value) : M (option MockEvent) :=
  match text with
  | INSERT_INTO_events => event <- insertEvent params ;; ret (Some event)
  | _ => ret None
  end.

(** A call to the pg server: it counts, and it throws when the server or
    the network fails it. *)
Definition pg_call {A} (effect : Db -> A * Db) : M A :=
  fun db =>
    let k := pg_calls db in
    let db1 := {| mock_events := mock_events db; pg_events := pg_events db;
                  pg_txn := pg_txn db; pg_calls := S k |} in
    if pg_ok k
    then let '(a, db2) := effect db1 in (inr a, db2)
    else (inl ThrownByLibrary, db1).

Definition set_pg (committed txn : list MockEvent) (db : Db) : Db :=
  {| mock_events := mock_events db; pg_events := committed; pg_txn := txn;
     pg_calls := pg_calls db |}.

(** A pg client: rows inserted in a transaction are held back until
    COMMIT succeeds; ROLLBACK drops them. *)
Definition pg_query (text : Sql) (params : list Value) : M (option MockEvent) :=
  match text with
  | BEGIN => pg_call (fun db => (None, set_pg (pg_events db) [] db))
  | COMMIT =>
      pg_call (fun db => (None, set_pg (pg_events db ++ pg_txn db) [] db))
  | ROLLBACK => pg_call (fun db => (None, set_pg (pg_events db) [] db))
  | INSERT_INTO_events =>
      pg_call (fun db =>
        let row :=
          {| ev_id := uuid (length (pg_events db) + length (pg_txn db));
             user_id := nth_param params 0;
             window_id := nth_param params 1;
             tab_id := nth_param params 2;
             type := nth_param params 3;
             title := nth_param params 4;
             url := nth_param params 5;
             ts := nth_param params 6;
             created_at := now |} in
        (Some row, set_pg (pg_events db) (pg_txn db ++ [row]) db))
  end.

(** [client.query(text, params)].  The Supabase client object has no
    [query] method: the call is a TypeError. *)
Definition client_query (client : DbClient) (text : Sql) (params : list Value)
  : M (option MockEvent) :=
  match client with
  | MockDb => mock_query text params
  | PoolClient => pg_query text params
  | SupabaseClient => throw ThrownByLibrary
  end.

(** [pool.connect()] *)
Definition getClient : M DbClient :=
  pg_call (fun db => (PoolClient, db)).

(** [client.release()]: an open transaction does not outlive its client. *)
Definition release (db : Db) : Db := set_pg (pg_events db) [] db.

(** [db.transaction(callback)] of the three connection modules *)
Definition transaction {A} (conn : Connection) (callback : DbClient -> M A) : M A :=
  match conn with
  | DatabaseConnection =>
      try_catch
        (client <- getClient ;;
         try_finally
           (try_catch
              (_ <- client_query client BEGIN [] ;;
               result <- callback client ;;
               _ <- client_query client COMMIT [] ;;
               ret result)
              (fun error =>
                 _ <- client_query client ROLLBACK [] ;;
                 throw error))
           release)
        (fun _ => callback MockDb)
  | MockDatabase => callback MockDb
  | SupabaseConnection => callback SupabaseClient
  end.

End Database.

(** *** routes/events.ts: POST /events/batch *)

(** One element of [req.body.events]. *)
Record EventInput := mkEventInput {
  in_window_id : Value;
  in_tab_id : Value;
  in_type : Value;
  in_title : Value;
  in_url : Value;
  in_ts : Value
}.

(** The JSON answer of the route. *)
Inductive Reply :=
| ReplyOk (synced_count : nat)
| ReplyError (e : Thrown).

Section Events.

Variable pg_ok : nat -> bool.
Variable uuid : nat -> string.
Variable now : Z.
(** The verdict of [batchEventsSchema.body.validate(req.body)] on the
    body whose [events] are given: the message of the first detail of
    the error, if any. *)
Variable batchEventsSchema : list EventInput -> option string.

Definition insertParams (userId : string) (event : EventInput) : list Value :=
  [ VString userId; in_window_id event; in_tab_id event; in_type event;
    in_title event; in_url event; in_ts event ].

(** One turn of the loop of the transaction callback. *)
Definition insertOne (userId : string) (client : DbClient) (event : EventInput)
  : M MockEvent :=
  insertResult <-
    client_query pg_ok uuid now client INSERT_INTO_events
      (insertParams userId event) ;;
  match insertResult with
  | Some row => ret row
  | None => throw ThrownByLibrary
  end.

(** The transaction callback. *)
Definition insertAll (userId : string) (events : list EventInput)
    (client : DbClient) : M (list MockEvent) :=
  mapM (insertOne userId client) events.

Definition postBatch (conn : Connection) (userId : string)
    (events : list EventInput) (db : Db) : Reply * Db :=
  match batchEventsSchema events with
  | Some detail => (ReplyError (invalidRequestBody detail), db)
  | None =>
      if Nat.eqb (length events) 0
      then (ReplyError (ThrownApp (mkAppError "No events provided" 400 true)), db)
      else
        match transaction pg_ok uuid now conn (insertAll userId events) db with
        | (inr result, db') => (ReplyOk (length result), db')
        | (inl e, db') => (ReplyError e, db')
        end
  end.

End Events.

(** The row a request event is persisted as, apart from its generated id
    and creation instant. *)
Definition rowOf (userId : string) (now : Z) (event : EventInput) (r : MockEvent)
  : Prop :=
  user_id r = VString userId /\ window_id r = in_window_id event /\
  tab_id r = in_tab_id event /\ type r = in_type event /\
  title r = in_title event /\ url r = in_url event /\
  (ts r = in_ts event \/ (falsy (in_ts event) = true /\ ts r = VDate now)).

(** The persisted events of both stores are those of [db]. *)
Definition unchanged (db db' : Db) : Prop :=
  mock_events db' = mock_events db /\ pg_events db' = pg_events db.

(** [db] with [rows] pushed to the mock events. *)
Definition pushed (rows : list MockEvent) (db : Db) : Db :=
  {| mock_events := mock_events db ++ rows; pg_events := pg_events db;
     pg_txn := pg_txn db; pg_calls := pg_calls db |}.

(** What a run of the callback or of a transaction may leave behind:
    nothing with a throw, or the rows of the whole batch in exactly one
    of the two stores with a result. *)
Definition allOrNothing (userId : string) (now : Z)
    (events : list EventInput) (db : Db)
    (r : Thrown + list MockEvent) (db' : Db) : Prop :=
  ((exists e, r = inl e) /\ unchanged db db')
  \/ exists rows,
       r = inr rows /\ Forall2 (rowOf userId now) events rows
       /\ ((mock_events db' = mock_events db ++ rows
            /\ pg_events db' = pg_events db)
           \/ (pg_events db' = pg_events db ++ rows
               /\ mock_events db' = mock_events db)).

End Api.

(** ** api/middleware: optional authentication and the error handler *)

Module Middleware.
Import Api.

Section OptionalAuth.

(** [jwt.verify(token, secret)] *)
Variable verify : string -> string -> Verified.

(** [optionalAuthMiddleware]: the user id it puts on the request, if any;
    it always calls [next()] without an error. *)
Definition optionalAuthMiddleware (env : ProcessEnv)
    (authHeader : option string) : option string :=
  match authHeader with
  | None => None
  | Some header =>
      if negb (Js.truthy_string header)
         || negb (Js.startsWith header "Bearer ")
      then None
      else
        let token := String.substring 7 (String.length header - 7) header in
        match JWT_SECRET env with
        | None => None
        | Some secret =>
            if negb (Js.truthy_string secret)
            then None
            else
              match verify token secret with
              | Decoded (Some userId) =>
                  if Js.truthy_string userId then Some userId else None
              | Decoded None => None
              | VerifyThrew _ _ => None
              end
        end
  end.

End OptionalAuth.

(** [ApiError]: an error with an optional status code and an optional
    operational flag. *)
Record ApiError := mkApiError {
  err_message : string;
  err_statusCode : option Z;
  err_isOperational : option bool
}.

(** The thrown values whose fields are known. *)
Definition apiErrorOf (e : Thrown) : option ApiError :=
  match e with
  | ThrownApp a =>
      Some {| err_message := message a;
              err_statusCode := Some (statusCode a);
              err_isOperational := Some (isOperational a) |}
  | ThrownError msg =>
      Some {| err_message := msg; err_statusCode := None;
              err_isOperational := None |}
  | ThrownByLibrary => None
  end.

(** What [errorHandler] sends: the status, the [error] field, and whether
    the stack is included. *)
Record ErrorReply := mkErrorReply {
  status : Z;
  error : string;
  withStack : bool
}.

Definition isDevelopment (nodeEnv : option string) : bool :=
  match nodeEnv with
  | Some v => String.eqb v "development"
  | None => false
  end.

(** [errorHandler(err, req, res, next)]; [nodeEnv] is
    [process.env.NODE_ENV]. *)
Definition errorHandler (nodeEnv : option string) (err : ApiError) : ErrorReply :=
  let statusCode :=
    match err_statusCode err with
    | Some code => code
    | None => 500%Z
    end in
  let operational :=
    match err_isOperational err with
    | Some b => b
    | None => false
    end in
  let errorMessage :=
    if operational || isDevelopment nodeEnv
    then err_message err
    else "Internal server error" in
  {| status := statusCode; error := errorMessage;
     withStack := isDevelopment nodeEnv |}.

End Middleware.

(** ** api/db/mock-db.ts and the authentication routes on it *)

Module Mock.
Import Api.

(** [String.prototype.toLowerCase] on ASCII text. *)
Definition lowerAscii (c : ascii) : ascii :=
  let n := nat_of_ascii c in
  if Nat.leb 65 n && Nat.leb n 90 then ascii_of_nat (n + 32) else c.

Fixpoint toLowerCase (s : string) : string :=
  match s with
  | EmptyString => EmptyString
  | String c rest => String (lowerAscii c) (toLowerCase rest)
  end.

(** The ASCII white space removed by [String.prototype.trim]. *)
Definition isSpace (c : ascii) : bool :=
  let n := nat_of_ascii c in
  Nat.eqb n 32 || (Nat.leb 9 n && Nat.leb n 13).

Fixpoint trimStart (l : list ascii) : list ascii :=
  match l with
  | c :: rest => if isSpace c then trimStart rest else l
  | [] => []
  end.

Definition trim (s : string) : string :=
  string_of_list_ascii
    (rev (trimStart (rev (trimStart (list_ascii_of_string s))))).

(** [s.includes(p)] *)
Fixpoint includes (s p : string) : bool :=
  String.prefix p s
  || match s with
     | String _ rest => includes rest p
     | EmptyString => false
     end.

(** [a === b] on query parameters; two dates are two objects. *)
Definition strictEq (a b : Value) : bool :=
  match a, b with
  | VString x, VString y => String.eqb x y
  | VNumber x, VNumber y => Z.eqb x y
  | VUndefined, VUndefined => true
  | _, _ => false
  end.

(** [MockUser] *)
Record MockUser := mkMockUser {
  id : string;
  email : Value;
  password_hash : Value;
  created_at : Z
}.

(** The row returned for a user without its password hash. *)
Record PublicUser := mkPublicUser {
  pub_id : string;
  pub_email : Value;
  pub_created_at : Z
}.

Definition publicOf (u : MockUser) : PublicUser :=
  {| pub_id := id u; pub_email := email u; pub_created_at := created_at u |}.

(** The arrays of the mock database: the users, and the events held in
    the [mock_events] of [Db].  The sessions array starts empty and no
    method writes to it. *)
Record Tables := mkTables {
  users : list MockUser;
  store : Db
}.

(** [{ rows, rowCount }], by the kind of row. *)
Inductive Rows :=
| UserRows (rows : list MockUser)
| PublicRows (rows : list PublicUser)
| EventRows (rows : list MockEvent)
| CountRows (count : nat)
| SessionRows
| NoRows.

(** [result.rows.length] *)
Definition rowsLength (r : Rows) : nat :=
  match r with
  | UserRows rows => length rows
  | PublicRows rows => length rows
  | EventRows rows => length rows
  | CountRows _ => 1
  | SessionRows => 0
  | NoRows => 0
  end.

Definition Result : Type := (Thrown + Rows) * Tables.

Section Queries.

(** The ids drawn by [generateUUID] for the n-th user and event. *)
Variable userUuid : nat -> string.
Variable eventUuid : nat -> string.
Variable now : Z.

Definition insertUser (params : list Value) (t : Tables) : Result :=
  if Nat.ltb (length params) 2
  then (inl (ThrownError "Missing user parameters"), t)
  else
    let user :=
      {| id := userUuid (length (users t));
         email := nth_param params 0;
         password_hash := nth_param params 1;
         created_at := now |} in
    match List.find (fun u => strictEq (email u) (email user)) (users t) with
    | Some _ => (inl (ThrownError "User already exists"), t)
    | None =>
        (inr (PublicRows [publicOf user]),
         {| users := users t ++ [user]; store := store t |})
    end.

Definition findUserByEmail (params : list Value) (t : Tables) : Result :=
  if Nat.ltb (length params) 1
  then (inr NoRows, t)
  else
    match List.find (fun u => strictEq (email u) (nth_param params 0))
            (users t) with
    | Some user => (inr (UserRows [user]), t)
    | None => (inr NoRows, t)
    end.

Definition findUserById (params : list Value) (t : Tables) : Result :=
  if Nat.ltb (length params) 1
  then (inr NoRows, t)
  else
    match List.find (fun u => strictEq (VString (id u)) (nth_param params 0))
            (users t) with
    | Some user => (inr (PublicRows [publicOf user]), t)
    | None => (inr NoRows, t)
    end.

Definition countEvents (params : list Value) (t : Tables) : Result :=
  let userEvents :=
    if Nat.ltb 0 (length params)
    then List.filter (fun e => strictEq (user_id e) (nth_param params 0))
           (mock_events (store t))
    else mock_events (store t) in
  (inr (CountRows (length userEvents)), t).

Definition getSessions (params : list Value) (t : Tables) : Result :=
  (inr SessionRows, t).

Definition insertEventRow (params : list Value) (t : Tables) : Result :=
  match insertEvent eventUuid now params (store t) with
  | (inr event, db') =>
      (inr (EventRows [event]), {| users := users t; store := db' |})
  | (inl e, db') => (inl e, {| users := users t; store := db' |})
  end.

(** [executeQuery(text, params)] *)
Definition executeQuery (text : string) (params : list Value) (t : Tables)
  : Result :=
  let trimmedQuery := toLowerCase (trim text) in
  if includes trimmedQuery "insert into users"
  then insertUser params t
  else if includes trimmedQuery "select * from users where email"
  then findUserByEmail params t
  else if includes trimmedQuery "insert into events"
  then insertEventRow params t
  else if includes trimmedQuery "select count(*) from events"
  then countEvents params t
  else if includes trimmedQuery "select * from sessions"
  then getSessions params t
  else if includes trimmedQuery "select * from users where id"
  then findUserById params t
  else (inr NoRows, t).

(** [mockDb.query]: the result or the error of [executeQuery]. *)
Definition query (text : string) (params : list Value) (t : Tables) : Result :=
  executeQuery text params t.

(** *** routes/auth.ts, when [db.query] falls back to the mock database *)

(** [bcrypt.hash(password, 12)] and [bcrypt.compare] *)
Variable hash : string -> string.
Variable compare : string -> string -> bool.
(** [jwt.sign] for the access and for the refresh token, by user id and
    secret *)
Variable signAccess : string -> string -> string.
Variable signRefresh : string -> string -> string.
(** [email.toLowerCase()] *)
Variable lowerEmail : string -> string.
(** [process.env.JWT_SECRET] and [process.env.REFRESH_TOKEN_SECRET] *)
Variable jwtSecret : option string.
Variable refreshSecret : option string.
(** The request body as it arrives, and the outcome of
    [schema.body.validate(req.body)] for the schemas of the two routes:
    the message of the first detail of the error, or the [email] and the
    [password] of the validated value. *)
Variable Body : Type.
Variable loginSchema : Body -> string + (string * string).
Variable registerSchema : Body -> string + (string * string).

Definition generateAccessToken (userId : string) : Thrown + string :=
  match jwtSecret with
  | Some secret =>
      if Js.truthy_string secret
      then inr (signAccess userId secret)
      else inl (ThrownApp (mkAppError "JWT secret not configured" 500 false))
  | None => inl (ThrownApp (mkAppError "JWT secret not configured" 500 false))
  end.

Definition generateRefreshToken (userId : string) : Thrown + string :=
  match refreshSecret with
  | Some secret =>
      if Js.truthy_string secret
      then inr (signRefresh userId secret)
      else inl (ThrownApp
                  (mkAppError "Refresh token secret not configured" 500 false))
  | None =>
      inl (ThrownApp
             (mkAppError "Refresh token secret not configured" 500 false))
  end.

(** The answer of the two routes: the status and the [AuthToken], or the
    error handed to the error handler. *)
Inductive AuthReply :=
| AuthOk (httpStatus : Z) (access_token refresh_token : string)
    (user : PublicUser)
| AuthError (e : Thrown).

Definition issueTokens (httpStatus : Z) (user : PublicUser) : AuthReply :=
  match generateAccessToken (pub_id user) with
  | inl e => AuthError e
  | inr accessToken =>
      match generateRefreshToken (pub_id user) with
      | inl e => AuthError e
      | inr refreshToken => AuthOk httpStatus accessToken refreshToken user
      end
  end.

Definition loginQuery : string :=
  "SELECT id, email, password_hash, created_at FROM users WHERE email = $1".

Definition existingUserQuery : string :=
  "SELECT id FROM users WHERE email = $1".

Definition createUserQuery : string :=
  "INSERT INTO users (email, password_hash) VALUES ($1, $2) RETURNING id, email, created_at".

(** The handler of POST /auth/login, on the validated body *)
Definition loginHandler (emailField password : string) (t : Tables)
  : AuthReply * Tables :=
  match query loginQuery [VString (lowerEmail emailField)] t with
  | (inl e, t') => (AuthError e, t')
  | (inr userResult, t') =>
      if Nat.eqb (rowsLength userResult) 0
      then (AuthError
              (ThrownApp (mkAppError "Invalid email or password" 401 true)), t')
      else
        match userResult with
        | UserRows (user :: _) =>
            match password_hash user with
            | VString h =>
                if compare password h
                then (issueTokens 200 (publicOf user), t')
                else (AuthError
                        (ThrownApp
                           (mkAppError "Invalid email or password" 401 true)),
                      t')
            | _ => (AuthError ThrownByLibrary, t')
            end
        | _ => (AuthError ThrownByLibrary, t')
        end
  end.

(** POST /auth/login: [validateRequest(loginSchema)], then the handler *)
Definition login (body : Body) (t : Tables) : AuthReply * Tables :=
  match loginSchema body with
  | inl detail => (AuthError (invalidRequestBody detail), t)
  | inr (emailField, password) => loginHandler emailField password t
  end.

(** The handler of POST /auth/register, on the validated body *)
Definition registerHandler (emailField password : string) (t : Tables)
  : AuthReply * Tables :=
  match query existingUserQuery [VString (lowerEmail emailField)] t with
  | (inl e, t') => (AuthError e, t')
  | (inr existingUser, t') =>
      if Nat.ltb 0 (rowsLength existingUser)
      then (AuthError
              (ThrownApp
                 (mkAppError "User already exists with this email" 409 true)),
            t')
      else
        match query createUserQuery
                [VString (lowerEmail emailField); VString (hash password)] t' with
        | (inl e, t'') => (AuthError e, t'')
        | (inr (PublicRows (user :: _)), t'') => (issueTokens 201 user, t'')
        | (inr _, t'') => (AuthError ThrownByLibrary, t'')
        end
  end.

(** POST /auth/register: [validateRequest(registerSchema)], then the
    handler *)
Definition register (body : Body) (t : Tables) : AuthReply * Tables :=
  match registerSchema body with
  | inl detail => (AuthError (invalidRequestBody detail), t)
  | inr (emailField, password) => registerHandler emailField password t
  end.

End Queries.

(** The stored e-mail addresses are strings, each at most once. *)
Definition distinctEmails (t : Tables) : Prop :=
  List.NoDup (map email (users t))
  /\ forall u, In u (users t) -> exists s, email u = VString s.

End Mock.

(** ** shared/utils/url: utility tabs *)

Module UrlTabs.

(** [s.endsWith(suffix)] *)
Definition endsWith (s suffix : string) : bool :=
  let n := String.length s in
  let m := String.length suffix in
  if Nat.leb m n then String.eqb (String.substring (n - m) m s) suffix else false.

Definition utilityDomains : list string :=
  [ "gmail.com"; "mail.google.com"; "outlook.com"; "outlook.live.com";
    "web.whatsapp.com"; "spotify.com"; "music.youtube.com";
    "calendar.google.com"; "keep.google.com"; "notion.so"; "slack.com";
    "discord.com"; "teams.microsoft.com" ].

Section Hostname.

(** [new URL(url).hostname]; [None] when the constructor throws. *)
Variable hostname : string -> option string.

Definition extractDomain (url : string) : option string := hostname url.

Definition isUtilityTab (url title : string) : bool :=
  match extractDomain url with
  | Some domain =>
      if negb (Js.truthy_string domain)
      then false
      else existsb
             (fun utilDomain =>
                String.eqb domain utilDomain
                || endsWith domain ("." ++ utilDomain))
             utilityDomains
  | None => false
  end.

End Hostname.

End UrlTabs.

(** ** shared/ai/mock-providers.ts: the domains of a list of titles *)

Module Providers.

(** [domains.add(label)] on a set kept in insertion order *)
Definition add (label : string) (domains : list string) : list string :=
  if Js.includes domains label then domains else domains ++ [label].

(** [if (hit) domains.add(label)] *)
Definition addIf (hit : bool) (label : string) (domains : list string)
  : list string :=
  if hit then add label domains else domains.

Definition labels : list string :=
  [ "development"; "programming"; "videos"; "email"; "documentation";
    "news"; "shopping"; "social" ].

Section ExtractDomains.

(** [title.toLowerCase()] *)
Variable toLowerCase : string -> string.

(** The body of the [forEach] of [extractDomains]. *)
Definition scanTitle (domains : list string) (title : string) : list string :=
  let lowerTitle := toLowerCase title in
  let has := Mock.includes lowerTitle in
  let d1 := addIf (has "github") "development" domains in
  let d2 := addIf (has "stackoverflow" || has "stack overflow")
              "programming" d1 in
  let d3 := addIf (has "youtube") "videos" d2 in
  let d4 := addIf (has "gmail" || has "email") "email" d3 in
  let d5 := addIf (has "docs" || has "documentation") "documentation" d4 in
  let d6 := addIf (has "news" || has "article") "news" d5 in
  let d7 := addIf (has "shop" || has "buy" || has "cart") "shopping" d6 in
  addIf (has "twitter" || has "facebook" || has "instagram") "social" d7.

Definition extractDomains (titles : list string) : list string :=
  fold_left scanTitle titles [].

End ExtractDomains.

End Providers.

(** ** extension/background: signing out *)

Module ApiClientAuth.
Import Types StorageManager ApiClient.

(** [StorageManager.setAuthToken] *)
Definition setAuthToken (token : option string) (st : Storage) : Storage :=
  let data := getData st in
  setData {| events := events data; tabInfo := tabInfo data;
             config := config data; lastSync := lastSync data;
             StorageManager.authToken := token |}.

Definition setToken (token : option string) (c : Client) : Client :=
  {| baseUrl := baseUrl c; ApiClient.authToken := token;
     eventQueue := eventQueue c; syncInProgress := syncInProgress c;
     storageManager := storageManager c |}.

(** [logout()] *)
Definition logout (s : System) : System :=
  {| storage :=
       if Js.truthy_opt (ApiClient.authToken (api s)) && storageManager (api s)
       then setAuthToken None (storage s)
       else storage s;
     api := setToken None (api s) |}.

End ApiClientAuth.

(** ** Sample data *)

Module Samples.
Import Types StorageManager ApiClient TabEventHandler.

Definition sampleEvent (n : Z) : Event :=
  {| window_id := 1; tab_id := 7; type := EvUpdate; title := "Docs";
     url := "https://example.com/"; ts := n |}.

(** Three digits. *)
Definition sampleId (n : nat) : string :=
  String (ascii_of_nat (48 + n / 100))
    (String (ascii_of_nat (48 + (n / 10) mod 10))
       (String (ascii_of_nat (48 + n mod 10)) "")).

Definition sampleAppends (n : nat) : list (Event * string) :=
  map (fun k => (sampleEvent (Z.of_nat k), sampleId k)) (seq 0 n).

Definition client (token : option string) (queue : list LocalEvent)
    (withStorage : bool) : Client :=
  {| baseUrl := "https://api.tabmemory.com"; ApiClient.authToken := token;
     eventQueue := queue; syncInProgress := false;
     storageManager := withStorage |}.

(** A signed-in client that was given the storage manager, on a fresh
    browser storage. *)
Definition freshSystem : System :=
  {| storage := None; api := client (Some "jwt") [] true |}.

(** 120 pending events in the store. *)
Definition system120 : System :=
  {| storage := storeEvents (sampleAppends 120) None;
     api := client (Some "jwt") [] true |}.

(** Two pending events in the store and one in the queue. *)
Definition system3 : System :=
  {| storage := storeEvents (sampleAppends 2) None;
     api := client (Some "jwt") [mkLocalEvent "q" (sampleEvent 5)] true |}.

(** A signed-out client with one stored and one queued event. *)
Definition signedOut : System :=
  {| storage := storeEvents (sampleAppends 1) None;
     api := client None [mkLocalEvent "q" (sampleEvent 5)] true |}.

Definition http200 : Response := {| ok := true; json_parses := true |}.
Definition http500 : Response := {| ok := false; json_parses := true |}.

Definition allAccepted : Network := fun _ => Some http200.

(** The second POST is answered with status 500. *)
Definition secondAnswers500 : Network :=
  fun k => if Nat.eqb k 1 then Some http500 else Some http200.

(** The second POST does not get through: [fetch] rejects. *)
Definition secondRejected : Network :=
  fun k => if Nat.eqb k 1 then None else Some http200.

Definition exampleTab : Tab :=
  {| id := Some 7%Z; tab_url := Some "https://example.com/";
     windowId := 1; tab_title := Some "Example" |}.

Definition settingsTab : Tab :=
  {| id := Some 8%Z; tab_url := Some "chrome://settings";
     windowId := 1; tab_title := Some "Settings" |}.

Definition fresh1 : Fresh :=
  {| now := 1000; storeId := "local_1000_aaa"; queueId := "local_1000_bbb" |}.

Definition envWithoutJwtSecret : Api.ProcessEnv :=
  {| Api.JWT_SECRET := None;
     Api.SUPABASE_URL := Some "https://project.supabase.co";
     Api.SUPABASE_SERVICE_ROLE_KEY := Some "service-role-key" |}.

Definition input1 : Api.EventInput :=
  {| Api.in_window_id := Api.VNumber 1; Api.in_tab_id := Api.VNumber 7;
     Api.in_type := Api.VString "open"; Api.in_title := Api.VString "Example";
     Api.in_url := Api.VString "https://example.com/";
     Api.in_ts := Api.VDate 1000 |}.

Definition input2 : Api.EventInput :=
  {| Api.in_window_id := Api.VNumber 1; Api.in_tab_id := Api.VNumber 7;
     Api.in_type := Api.VString "close"; Api.in_title := Api.VString "Example";
     Api.in_url := Api.VString "https://example.com/";
     Api.in_ts := Api.VDate 1500 |}.

Definition twoInputs : list Api.EventInput := [input1; input2].

Definition emptyDb : Api.Db :=
  {| Api.mock_events := []; Api.pg_events := []; Api.pg_txn := [];
     Api.pg_calls := 0 |}.

Definition rowFor (rid userId : string) (created : Z) (event : Api.EventInput)
  : Api.MockEvent :=
  {| Api.ev_id := rid; Api.user_id := Api.VString userId;
     Api.window_id := Api.in_window_id event;
     Api.tab_id := Api.in_tab_id event; Api.type := Api.in_type event;
     Api.title := Api.in_title event; Api.url := Api.in_url event;
     Api.ts := Api.in_ts event; Api.created_at := created |}.

(** A users table of the mock database with one registered user. *)
Definition oneUser : Mock.Tables :=
  {| Mock.users :=
       [ {| Mock.id := "u-0"; Mock.email := Api.VString "ada@example.com";
            Mock.password_hash := Api.VString "hash-0";
            Mock.created_at := 500 |} ];
     Mock.store := emptyDb |}.

(** A stand-in for the verdict of the register schema on a body of two
    strings: it refuses a password of fewer than 8 characters. *)
Definition passwordOfEight (body : string * string) : string + (string * string) :=
  if Nat.leb 8 (String.length (snd body))
  then inr body
  else inl "password length must be at least 8 characters long".

End Samples.

(** * Properties *)

(** ** JavaScript helpers *)

Lemma includes_In (l : list string) (x : string) :
  Js.includes l x = true <-> In x l.
Proof.
  unfold Js.includes. rewrite existsb_exists. split.
  - intros [y [Hy Heq]]. apply String.eqb_eq in Heq. now subst.
  - intros H. exists x. split; [assumption | apply String.eqb_refl].
Qed.

Lemma includes_false (l : list string) (x : string) :
  Js.includes l x = false <-> ~ In x l.
Proof.
  rewrite <- includes_In. destruct (Js.includes l x); split; congruence.
Qed.

Lemma slice_last_all {A} (n : nat) (l : list A) :
  length l <= n -> Js.slice_last n l = l.
Proof.
  intros H. unfold Js.slice_last.
  replace (length l - n) with 0 by lia. reflexivity.
Qed.

Lemma slice_last_length {A} (n : nat) (l : list A) :
  length (Js.slice_last n l) = Nat.min (length l) n.
Proof. unfold Js.slice_last. rewrite length_skipn. lia. Qed.

(** Trimming before further pushes does not change what the last [n]
    elements are. *)
Lemma slice_last_app {A} (n : nat) (l r : list A) :
  Js.slice_last n (Js.slice_last n l ++ r) = Js.slice_last n (l ++ r).
Proof.
  unfold Js.slice_last.
  rewrite !length_app, length_skipn.
  destruct (Nat.le_gt_cases (length l) n) as [Hle | Hgt].
  - replace (length l - n) with 0 by lia. simpl.
    now replace (length l - 0) with (length l) by lia.
  - replace (length l - (length l - n) + length r - n) with (length r) by lia.
    replace (length l + length r - n)
      with (length r + (length l - n)) by lia.
    rewrite <- (skipn_skipn (length r) (length l - n) (l ++ r)).
    rewrite (skipn_app (length l - n) l r).
    now replace (length l - n - length l) with 0 by lia.
Qed.

(** ** Clustering configuration *)

(** C9: the configured weights are 3, 2, 1, 3 and 2, the promotion
    threshold is 5, and the score of a comparison is the sum of the
    weights of its true signals, compared against 5. *)
Theorem clustering_weights_and_threshold :
  Types.Weights.semantic_shift_below_0_6 Types.DEFAULT_CLUSTERING_WEIGHTS
    = 3%Z /\
  Types.Weights.majority_shift_over_50pct Types.DEFAULT_CLUSTERING_WEIGHTS
    = 2%Z /\
  Types.Weights.idle_gap_over_20m Types.DEFAULT_CLUSTERING_WEIGHTS = 1%Z /\
  Types.Weights.new_window_boundary Types.DEFAULT_CLUSTERING_WEIGHTS = 3%Z /\
  Types.Weights.persistence_over_2_snapshots_or_3_tabs
    Types.DEFAULT_CLUSTERING_WEIGHTS = 2%Z /\
  Types.PROMOTION_THRESHOLD = 5%Z /\
  forall s : Types.Signals,
    let sum :=
      ((if Types.semantic_shift s then 3 else 0)
       + (if Types.majority_shift s then 2 else 0)
       + (if Types.idle_gap s then 1 else 0)
       + (if Types.new_window s then 3 else 0)
       + (if Types.persistence s then 2 else 0))%Z in
    Types.total (Types.score Types.DEFAULT_CLUSTERING_WEIGHTS s) = sum /\
    Types.promotes Types.PROMOTION_THRESHOLD
      (Types.score Types.DEFAULT_CLUSTERING_WEIGHTS s) = (5 <=? sum)%Z.
Proof.
  repeat split; try reflexivity;
    destruct s as [[] [] [] [] []]; reflexivity.
Qed.

(** ** Local event store *)

Section Store.
Import Types StorageManager.

Lemma storeEvent_pending (event : Event) (lid : string) (st : Storage) :
  getPendingEvents (storeEvent event lid st)
  = Js.slice_last MAX_LOCAL_EVENTS
      (getPendingEvents st ++ [mkLocalEvent lid event]).
Proof.
  unfold getPendingEvents, storeEvent. cbn [getData setData events].
  destruct (Nat.ltb_spec MAX_LOCAL_EVENTS
              (length (events (getData st) ++ [mkLocalEvent lid event])))
    as [Hlt | Hge].
  - reflexivity.
  - symmetry. now apply slice_last_all.
Qed.

Lemma storeEvents_pending (appends : list (Event * string)) (st : Storage) :
  appends <> [] ->
  getPendingEvents (storeEvents appends st)
  = Js.slice_last MAX_LOCAL_EVENTS (getPendingEvents st ++ tagged appends).
Proof.
  revert st. induction appends as [| [event lid] rest IH]; intros st Hne.
  - congruence.
  - unfold storeEvents in *. cbn [fold_left fst snd tagged map].
    destruct rest as [| next rest'].
    + cbn [fold_left]. apply storeEvent_pending.
    + rewrite IH by discriminate.
      rewrite storeEvent_pending.
      rewrite slice_last_app. now rewrite <- app_assoc.
Qed.

(** Appends made one after the other, each as one step: the pending
    sequence is the former pending events followed by the appended ones,
    cut to its last 1000 entries. *)
Lemma pending_after_appends (appends : list (Event * string)) (st : Storage) :
  length (getPendingEvents st) <= MAX_LOCAL_EVENTS ->
  getPendingEvents (storeEvents appends st)
  = Js.slice_last 1000 (getPendingEvents st ++ tagged appends)
  /\ getPendingEvents (storeEvents appends None)
     = skipn (length appends - 1000) (tagged appends)
  /\ length (getPendingEvents (storeEvents appends None))
     = Nat.min (length appends) 1000.
Proof.
  intros Hcap.
  assert (Hgen : forall st', length (getPendingEvents st') <= MAX_LOCAL_EVENTS ->
            getPendingEvents (storeEvents appends st')
            = Js.slice_last 1000 (getPendingEvents st' ++ tagged appends)).
  { intros st' Hst'. destruct appends as [| a rest].
    - cbn [storeEvents fold_left tagged map]. rewrite app_nil_r.
      symmetry. now apply slice_last_all.
    - now apply storeEvents_pending. }
  split; [now apply Hgen |].
  assert (Hfresh : getPendingEvents (storeEvents appends None)
                   = skipn (length appends - 1000) (tagged appends)).
  { rewrite Hgen by (cbn; unfold MAX_LOCAL_EVENTS; lia).
    cbn [getPendingEvents getData getDefaultData events app].
    unfold Js.slice_last, tagged. now rewrite length_map. }
  split; [exact Hfresh |].
  rewrite Hfresh, length_skipn. unfold tagged. rewrite length_map. lia.
Qed.

(** One call of [storeEvent] with nothing in between is its read followed
    by its write. *)
Lemma storeEvent_steps (event : Event) (lid : string) (st : Storage) :
  storeEvent event lid st = setData (storeEventBody event lid (getData st)).
Proof. reflexivity. Qed.

Lemma read_then_write (calls : list (Event * string)) (call : nat)
    (event : Event) (lid : string) (r : Overlapping) :
  calls !! call = Some (event, lid) ->
  stored (stepOp calls (Write call) (stepOp calls (Read call) r))
  = storeEvent event lid (stored r).
Proof.
  intros Hcall. cbn [stepOp held stored].
  rewrite lookup_insert_eq, Hcall. reflexivity.
Qed.

Lemma serialFrom_S (first n : nat) :
  serialFrom first (S n)
  = Read first :: Write first :: serialFrom (S first) n.
Proof. reflexivity. Qed.

Lemma runOps_serialFrom (calls : list (Event * string)) :
  forall (rest pre : list (Event * string)) (r : Overlapping),
    calls = pre ++ rest ->
    stored (runOps calls (serialFrom (length pre) (length rest)) r)
    = storeEvents rest (stored r).
Proof.
  induction rest as [| [event lid] rest IH]; intros pre r Hcalls.
  - reflexivity.
  - cbn [length]. rewrite serialFrom_S. unfold runOps. cbn [fold_left].
    fold (runOps calls (serialFrom (S (length pre)) (length rest))
            (stepOp calls (Write (length pre))
               (stepOp calls (Read (length pre)) r))).
    rewrite <- (last_length pre (event, lid)).
    rewrite (IH (pre ++ [(event, lid)])).
    + rewrite (read_then_write calls (length pre) event lid).
      * reflexivity.
      * rewrite Hcalls. now apply list_lookup_middle.
    + rewrite Hcalls, <- app_assoc. reflexivity.
Qed.

Lemma reads_serialFrom (n first : nat) : reads (serialFrom first n) = seq first n.
Proof.
  revert first. induction n as [| n IH]; intros first; [reflexivity |].
  rewrite serialFrom_S. cbn [reads flat_map app seq]. f_equal. apply IH.
Qed.

Lemma writes_serialFrom (n first : nat) : writes (serialFrom first n) = seq first n.
Proof.
  revert first. induction n as [| n IH]; intros first; [reflexivity |].
  rewrite serialFrom_S. cbn [writes flat_map app seq]. f_equal. apply IH.
Qed.

Lemma readBeforeWrite_serialFrom (n first : nat) (started : list nat) :
  readBeforeWrite started (serialFrom first n) = true.
Proof.
  revert first started. induction n as [| n IH]; intros first started;
    [reflexivity |].
  rewrite serialFrom_S. cbn [readBeforeWrite existsb].
  rewrite Nat.eqb_refl. cbn [orb andb]. apply IH.
Qed.

Lemma serial_inOrder (n : nat) : inOrder n (serial n).
Proof.
  unfold inOrder, serial.
  rewrite reads_serialFrom, writes_serialFrom, readBeforeWrite_serialFrom.
  repeat split.
Qed.

(** C4, as stated, fails: two appends to a fresh store, the second of
    which reads before the first has written, leave only the second
    event pending. *)
Lemma overlapping_appends_lose_an_event :
  ~ (forall (calls : list (Event * string)) (ops : list Op),
       inOrder (length calls) ops ->
       getPendingEvents (stored (runOps calls ops (idle None)))
       = Js.slice_last 1000 (tagged calls)).
Proof.
  intros H.
  specialize (H (Samples.sampleAppends 2) [Read 0; Read 1; Write 0; Write 1]).
  assert (Hlost :
    getPendingEvents
      (stored (runOps (Samples.sampleAppends 2)
                 [Read 0; Read 1; Write 0; Write 1] (idle None)))
    = [mkLocalEvent "001" (Samples.sampleEvent 1)]) by reflexivity.
  rewrite Hlost in H.
  assert (Hclaim : inOrder (length (Samples.sampleAppends 2))
                     [Read 0; Read 1; Write 0; Write 1])
    by (repeat split).
  apply H in Hclaim. apply (f_equal (@length LocalEvent)) in Hclaim.
  vm_compute in Hclaim. discriminate Hclaim.
Qed.

(** C4, amended: for appends each of which has written before the next
    reads, the pending sequence is the former pending events followed by
    the appended ones, in insertion order, cut to its last 1000 entries;
    on a fresh store N such appends leave exactly the appended events
    without the first N - 1000. *)
Theorem serial_appends_pending (calls : list (Event * string)) (st : Storage) :
  length (getPendingEvents st) <= MAX_LOCAL_EVENTS ->
  inOrder (length calls) (serial (length calls))
  /\ getPendingEvents (stored (runOps calls (serial (length calls)) (idle st)))
     = Js.slice_last 1000 (getPendingEvents st ++ tagged calls)
  /\ getPendingEvents (stored (runOps calls (serial (length calls)) (idle None)))
     = skipn (length calls - 1000) (tagged calls)
  /\ length (getPendingEvents
               (stored (runOps calls (serial (length calls)) (idle None))))
     = Nat.min (length calls) 1000.
Proof.
  intros Hcap. split; [apply serial_inOrder |].
  assert (Hrun : forall st',
            stored (runOps calls (serial (length calls)) (idle st'))
            = storeEvents calls st').
  { intros st'. apply (runOps_serialFrom calls calls [] (idle st')).
    reflexivity. }
  rewrite !Hrun. now apply pending_after_appends.
Qed.

Lemma serial_appends_pending_witness :
  inOrder (length (Samples.sampleAppends 3))
    (serial (length (Samples.sampleAppends 3)))
  /\ getPendingEvents
       (stored (runOps (Samples.sampleAppends 3)
                  (serial (length (Samples.sampleAppends 3))) (idle None)))
     = Js.slice_last 1000
         (getPendingEvents None ++ tagged (Samples.sampleAppends 3))
  /\ getPendingEvents
       (stored (runOps (Samples.sampleAppends 3)
                  (serial (length (Samples.sampleAppends 3))) (idle None)))
     = skipn (length (Samples.sampleAppends 3) - 1000)
         (tagged (Samples.sampleAppends 3))
  /\ length (getPendingEvents
               (stored (runOps (Samples.sampleAppends 3)
                          (serial (length (Samples.sampleAppends 3)))
                          (idle None))))
     = Nat.min (length (Samples.sampleAppends 3)) 1000.
Proof.
  apply (serial_appends_pending (Samples.sampleAppends 3) None).
  cbn. unfold MAX_LOCAL_EVENTS. lia.
Defined.

(** Order-preserving removal. *)
Lemma filter_sublist {A} (keep : A -> bool) (l : list A) :
  sublist (List.filter keep l) l.
Proof.
  induction l as [| a l IH]; cbn.
  - constructor.
  - destruct (keep a); now constructor.
Qed.

Lemma filter_all {A} (keep : A -> bool) (l : list A) :
  (forall a, In a l -> keep a = true) -> List.filter keep l = l.
Proof.
  induction l as [| a l IH]; cbn; intros H.
  - reflexivity.
  - rewrite (H a) by now left. f_equal. apply IH. intros b Hb. apply H. now right.
Qed.

(** C10: acknowledgement removes exactly the pending events whose local id
    is among the given ids, keeps the others in their order, changes
    nothing else of the event data, and removes nothing when no pending
    event carries one of the ids. *)
Theorem markEventsSynced_removes_exactly (localIds : list string) (now : Z)
    (st : Storage) :
  let before := getPendingEvents st in
  let after := getPendingEvents (markEventsSynced localIds now st) in
  (forall e, In e after <-> In e before /\ ~ In (localId e) localIds)
  /\ sublist after before
  /\ ((forall e, In e before -> ~ In (localId e) localIds) -> after = before)
  /\ tabInfo (getData (markEventsSynced localIds now st)) = tabInfo (getData st)
  /\ authToken (getData (markEventsSynced localIds now st))
     = authToken (getData st).
Proof.
  cbn zeta. unfold getPendingEvents, markEventsSynced.
  cbn [getData setData events tabInfo authToken].
  split; [| split; [| split; [| split; reflexivity]]].
  - intros e. rewrite filter_In, negb_true_iff, includes_false. tauto.
  - apply filter_sublist.
  - intros Habsent. apply filter_all. intros e He.
    now apply negb_true_iff, includes_false, Habsent.
Qed.

End Store.

(** ** Sync engine *)

Section Sync.
Import Types StorageManager ApiClient.

(** The loop index grows by 50 each turn, so [length allEvents] turns are
    enough: any two such amounts of fuel give the same run. *)
Lemma batchLoop_fuel (net : Network) (all : list LocalEvent) :
  forall fuel1 fuel2 i call synced sent,
    length all - i <= fuel1 -> length all - i <= fuel2 ->
    batchLoop net all fuel1 i call synced sent
    = batchLoop net all fuel2 i call synced sent.
Proof.
  induction fuel1 as [| fuel1 IH]; intros fuel2 i call synced sent H1 H2.
  - destruct fuel2 as [| fuel2]; [reflexivity |]. cbn [batchLoop].
    destruct (Nat.ltb_spec i (length all)); [lia | reflexivity].
  - destruct fuel2 as [| fuel2]; cbn [batchLoop].
    + destruct (Nat.ltb_spec i (length all)); [lia | reflexivity].
    + destruct (Nat.ltb_spec i (length all)); [| reflexivity].
      destruct (post net call) as [response |]; [| reflexivity].
      apply IH; unfold batchSize; lia.
Qed.

(** A rejected [fetch] ends the loop: the batch was attempted, nothing
    more is sent and no id is added. *)
Lemma batchLoop_break (net : Network) (all : list LocalEvent)
    (fuel i call : nat) (synced : list string) (sent : list (list Event)) :
  i < length all -> net call = None ->
  batchLoop net all (S fuel) i call synced sent
  = (synced, sent ++ [map payload (Js.slice i (i + batchSize) all)]).
Proof.
  intros Hi Hnet. cbn [batchLoop].
  destruct (Nat.ltb_spec i (length all)); [| lia].
  unfold post. now rewrite Hnet.
Qed.

(** A response with [success: false] does not end the loop: the next
    batch is attempted with the same acknowledged ids. *)
Lemma batchLoop_continue (net : Network) (all : list LocalEvent)
    (fuel i call : nat) (synced : list string) (sent : list (list Event))
    (response : Response) :
  i < length all -> net call = Some response ->
  success (handleResponse response) = false ->
  batchLoop net all (S fuel) i call synced sent
  = batchLoop net all fuel (i + batchSize) (S call) synced
      (sent ++ [map payload (Js.slice i (i + batchSize) all)]).
Proof.
  intros Hi Hnet Hfail. cbn [batchLoop].
  destruct (Nat.ltb_spec i (length all)); [| lia].
  unfold post. now rewrite Hnet, Hfail.
Qed.

Lemma firstn_plus {A} (a m : nat) (l : list A) :
  firstn (a + m) l = firstn a l ++ firstn m (skipn a l).
Proof.
  revert l. induction a as [| a IH]; intros l; [reflexivity |].
  destruct l as [| x l]; cbn.
  - now rewrite firstn_nil.
  - now rewrite IH.
Qed.

(** The POST bodies of a cycle are consecutive slices: put end to end
    they are an initial part of the sequence, from the loop index on. *)
Lemma batchLoop_sent (net : Network) (all : list LocalEvent) :
  forall fuel i call synced sent,
    exists n,
      concat (snd (batchLoop net all fuel i call synced sent))
      = concat sent ++ map payload (firstn n (skipn i all)).
Proof.
  induction fuel as [| fuel IH]; intros i call synced sent.
  - exists 0. cbn. now rewrite app_nil_r.
  - cbn [batchLoop]. destruct (Nat.ltb i (length all)).
    2:{ exists 0. cbn. now rewrite app_nil_r. }
    unfold Js.slice. replace (i + batchSize - i) with batchSize by lia.
    destruct (post net call) as [response |].
    + match goal with
      | |- context [batchLoop net all fuel ?i' ?c' ?s' ?t'] =>
          destruct (IH i' c' s' t') as [m Hm]
      end.
      exists (batchSize + m). rewrite Hm.
      rewrite concat_app. cbn [concat]. rewrite app_nil_r, <- app_assoc.
      f_equal. rewrite firstn_plus, map_app. f_equal.
      rewrite skipn_skipn. do 3 f_equal. lia.
    + exists batchSize. cbn [snd].
      rewrite concat_app. cbn [concat]. now rewrite app_nil_r.
Qed.


(** C8: without a credential a sync changes nothing and sends nothing. *)
Theorem sync_without_credential (net : Network) (now : Z) (s : System) :
  Js.truthy_opt (ApiClient.authToken (api s)) = false ->
  syncPendingEvents net now s = (s, []).
Proof.
  intros Hno. unfold syncPendingEvents. rewrite Hno.
  now rewrite orb_true_r.
Qed.

Lemma sync_without_credential_witness :
  syncPendingEvents Samples.allAccepted 2000 Samples.signedOut
  = (Samples.signedOut, []).
Proof.
  apply (sync_without_credential Samples.allAccepted 2000 Samples.signedOut).
  reflexivity.
Defined.

(** C1, at 120 pending events when the server answers the second POST
    with status 500: the third batch is still sent and acknowledged, so
    the events of the first and of the third batch leave the store and
    those of the second stay behind. *)
Theorem sync_continues_after_failed_response :
  let result := syncPendingEvents Samples.secondAnswers500 2000 Samples.system120 in
  map (@length Event) (snd result) = [50; 50; 20]
  /\ map localId (getPendingEvents (storage (fst result)))
     = map Samples.sampleId (seq 50 50).
Proof. vm_compute. split; reflexivity. Qed.

(** When the second POST is rejected by [fetch] the loop does stop: two
    POSTs, and only the first 50 events leave the store. *)
Lemma sync_stops_after_rejected_fetch :
  let result := syncPendingEvents Samples.secondRejected 2000 Samples.system120 in
  map (@length Event) (snd result) = [50; 50]
  /\ map localId (getPendingEvents (storage (fst result)))
     = map Samples.sampleId (seq 50 70).
Proof. vm_compute. split; reflexivity. Qed.

(** All three batches accepted: calls of 50, 50 and 20 events. *)
Lemma sync_120_in_three_batches :
  let result := syncPendingEvents Samples.allAccepted 2000 Samples.system120 in
  map (@length Event) (snd result) = [50; 50; 20]
  /\ getPendingEvents (storage (fst result)) = [].
Proof. vm_compute. split; reflexivity. Qed.

(** On a fresh signed-in system whose client was given the storage
    manager, the sequence read by the next sync holds a captured event
    twice, and both copies go out in the same POST. *)
Lemma captured_event_is_sent_twice (redact : string -> string) :
  let ev := {| window_id := 1; tab_id := 7; type := EvOpen; title := "Example";
               url := redact "https://example.com/"; ts := 1000 |} in
  let s1 := fst (TabEventHandler.handleTabEvent redact Samples.exampleTab EvOpen
                   Samples.fresh1 Samples.freshSystem) in
  allEvents s1
  = [ mkLocalEvent "local_1000_aaa" ev; mkLocalEvent "local_1000_bbb" ev ]
  /\ snd (syncPendingEvents Samples.allAccepted 2000 s1) = [[ev; ev]].
Proof. intros ev s1. subst ev s1. split; reflexivity. Qed.

End Sync.

(** ** Event capture and the ignore list *)

Section Capture.
Import Types StorageManager ApiClient TabEventHandler.

Lemma slice_last_snoc {A} (n : nat) (l : list A) (x : A) :
  0 < n -> exists kept, Js.slice_last n (l ++ [x]) = kept ++ [x].
Proof.
  intros Hn. unfold Js.slice_last. rewrite length_app. cbn [length].
  rewrite skipn_app.
  replace (length l + 1 - n - length l) with 0 by lia.
  now exists (skipn (length l + 1 - n) l).
Qed.

(** C6, as stated, fails for a close: closing a tab that shows
    chrome://settings puts a close event in the pending sequence. *)
Lemma close_of_ignored_tab_is_recorded :
  ~ (forall (redact : string -> string) (a : Activity) (f : Fresh) (s : System),
       ignoredActivity a = true ->
       getPendingEvents (storage (fst (listen redact a f s)))
       = getPendingEvents (storage s)).
Proof.
  intros H.
  specialize (H (fun u => u) (Removed 8 1 "chrome://settings")
                Samples.fresh1 Samples.freshSystem eq_refl).
  vm_compute in H. discriminate H.
Qed.

(** C6, amended: an open, update or activate activity (a window focus
    change included) whose URL starts with an ignored prefix leaves the
    store, the tab table and the queue as they were and starts no sync.
    A close carries no URL and is not checked: it always appends a close
    event, whose URL is the one last stored for that tab id, or empty. *)
Theorem ignored_url_creates_no_event (redact : string -> string)
    (a : Activity) (f : Fresh) (s : System) :
  ignoredActivity a = true ->
  (isClose a = false -> listen redact a f s = (s, false))
  /\ (forall tabId wId shown, a = Removed tabId wId shown ->
      let s' := fst (listen redact a f s) in
      let info := getTabInfo tabId (storage s) in
      let ev := {| window_id := wId; tab_id := tabId; type := EvClose;
                   title := Js.or_string (option_map ti_title info) "Closed Tab";
                   url := Js.or_string (option_map ti_url info) "";
                   ts := now f |} in
      (exists kept,
         getPendingEvents (storage s') = kept ++ [mkLocalEvent (storeId f) ev])
      /\ eventQueue (api s')
         = eventQueue (api s) ++ [mkLocalEvent (queueId f) ev]).
Proof.
  intros Hign. split.
  - intros Hopen.
    assert (Hev : forall tab ty, tab_url tab = activityUrl a ->
                    handleTabEvent redact tab ty f s = (s, false)).
    { intros tab ty Hurl. unfold handleTabEvent.
      unfold ignoredActivity in Hign. rewrite <- Hurl in Hign.
      destruct (id tab) as [tabId |]; [| reflexivity].
      destruct (tab_url tab) as [u |]; [| reflexivity].
      rewrite Hign.
      destruct (negb (Js.truthy_num tabId) || negb (Js.truthy_string u)
                || negb (Js.truthy_num (windowId tab))); reflexivity. }
    destruct a as [tab | cu ct tab | tab | tabId wId shown | focused tabs];
      cbn [listen]; try discriminate Hopen.
    + now apply Hev.
    + destruct (Js.truthy_opt cu || Js.truthy_opt ct);
        [now apply Hev | reflexivity].
    + now apply Hev.
    + destruct (Z.eqb focused WINDOW_ID_NONE); [reflexivity |].
      destruct tabs as [| tab rest]; [reflexivity | now apply Hev].
  - intros tabId wId shown ->. cbn zeta. cbn [listen].
    unfold handleTabClose, record, queueEvent.
    cbn [fst storage api eventQueue]. split; [| reflexivity].
    unfold getPendingEvents, removeTabInfo. cbn [getData setData events].
    fold (getPendingEvents
            (storeEvent
               {| window_id := wId; tab_id := tabId; type := EvClose;
                  title := Js.or_string
                             (option_map ti_title (getTabInfo tabId (storage s)))
                             "Closed Tab";
                  url := Js.or_string
                           (option_map ti_url (getTabInfo tabId (storage s))) "";
                  ts := now f |} (storeId f) (storage s))).
    rewrite storeEvent_pending.
    apply slice_last_snoc. unfold MAX_LOCAL_EVENTS. lia.
Qed.

Lemma ignored_url_creates_no_event_witness :
  (isClose (Created Samples.settingsTab) = false ->
   listen (fun u => u) (Created Samples.settingsTab) Samples.fresh1
     Samples.freshSystem = (Samples.freshSystem, false))
  /\ (forall tabId wId shown,
      Created Samples.settingsTab = Removed tabId wId shown ->
      let s' := fst (listen (fun u => u) (Created Samples.settingsTab)
                       Samples.fresh1 Samples.freshSystem) in
      let info := getTabInfo tabId (storage Samples.freshSystem) in
      let ev := {| window_id := wId; tab_id := tabId; type := EvClose;
                   title := Js.or_string (option_map ti_title info) "Closed Tab";
                   url := Js.or_string (option_map ti_url info) "";
                   ts := now Samples.fresh1 |} in
      (exists kept,
         getPendingEvents (storage s')
         = kept ++ [mkLocalEvent (storeId Samples.fresh1) ev])
      /\ eventQueue (api s')
         = eventQueue (api Samples.freshSystem)
           ++ [mkLocalEvent (queueId Samples.fresh1) ev]).
Proof.
  apply (ignored_url_creates_no_event (fun u => u)
           (Created Samples.settingsTab) Samples.fresh1 Samples.freshSystem).
  reflexivity.
Defined.




End Capture.

(** ** Server configuration *)

Section Configuration.
Import Api.


(** The guard of the middleware: a request with a bearer token, handled
    without a signing secret, is answered with the error of the guard. *)
Lemma authMiddleware_without_secret (verify : string -> string -> Verified)
    (env : ProcessEnv) (header : string) :
  Js.startsWith header "Bearer " = true ->
  Js.truthy_opt (JWT_SECRET env) = false ->
  authMiddleware verify env (Some header) = missingSecretError.
Proof.
  intros Hbearer Hmissing. unfold authMiddleware. rewrite Hbearer.
  assert (Hne : Js.truthy_string header = true).
  { destruct header; [discriminate Hbearer | reflexivity]. }
  rewrite Hne. cbn [negb orb].
  destruct (JWT_SECRET env) as [secret |]; [| reflexivity].
  cbn in Hmissing. now rewrite Hmissing.
Qed.


End Configuration.

(** ** Ingestion endpoint *)

Section Ingestion.
Import Api.

Variable pg_ok : nat -> bool.
Variable uuid : nat -> string.
Variable now : Z.
Variable batchEventsSchema : list EventInput -> option string.
Variable userId : string.

Lemma unchanged_refl (db : Db) : unchanged db db.
Proof. split; reflexivity. Qed.

Lemma unchanged_trans (db1 db2 db3 : Db) :
  unchanged db1 db2 -> unchanged db2 db3 -> unchanged db1 db3.
Proof. unfold unchanged. intros [? ?] [? ?]. split; congruence. Qed.

Lemma insertParams_row (event : EventInput) (db : Db) :
  exists row,
    insertEvent uuid now (insertParams userId event) db
    = (inr row,
       {| mock_events := mock_events db ++ [row]; pg_events := pg_events db;
          pg_txn := pg_txn db; pg_calls := pg_calls db |})
    /\ rowOf userId now event row.
Proof.
  unfold insertEvent, insertParams. cbn [length Nat.ltb Nat.leb nth_param nth].
  eexists. split; [reflexivity |].
  unfold rowOf. cbn. repeat split.
  destruct (falsy (in_ts event)); auto.
Qed.

Lemma bind_inr {A B} (m : M A) (k : A -> M B) (db db' : Db) (a : A) :
  m db = (inr a, db') -> bind m k db = k a db'.
Proof. intros H. unfold bind. now rewrite H. Qed.

Lemma bind_inl {A B} (m : M A) (k : A -> M B) (db db' : Db) (e : Thrown) :
  m db = (inl e, db') -> bind m k db = (inl e, db').
Proof. intros H. unfold bind. now rewrite H. Qed.

Lemma insertOne_mock (event : EventInput) (db : Db) :
  exists row,
    insertOne pg_ok uuid now userId MockDb event db = (inr row, pushed [row] db)
    /\ rowOf userId now event row.
Proof.
  destruct (insertParams_row event db) as [row [Hrow Hof]].
  exists row. split; [| exact Hof].
  unfold insertOne. cbn [client_query mock_query].
  unfold bind. rewrite Hrow. reflexivity.
Qed.

(** On the mock database the callback cannot throw: every row of the
    batch is pushed. *)
Lemma insertAll_mock (events : list EventInput) :
  forall db, exists rows,
    insertAll pg_ok uuid now userId events MockDb db = (inr rows, pushed rows db)
    /\ Forall2 (rowOf userId now) events rows.
Proof.
  induction events as [| event rest IH]; intros db.
  - exists []. unfold pushed. cbn. rewrite app_nil_r.
    destruct db; split; [reflexivity | constructor].
  - destruct (insertOne_mock event db) as [row [Hrow Hof]].
    destruct (IH (pushed [row] db)) as [rows [Hrest Hall]].
    exists (row :: rows). split; [| now constructor].
    unfold insertAll in *. cbn [mapM].
    erewrite bind_inr by exact Hrow.
    erewrite bind_inr by exact Hrest.
    unfold ret, pushed. cbn. now rewrite <- app_assoc.
Qed.

Lemma insertOne_pg (event : EventInput) (db : Db) (r : Thrown + MockEvent)
    (db' : Db) :
  insertOne pg_ok uuid now userId PoolClient event db = (r, db') ->
  unchanged db db'
  /\ ((exists e, r = inl e)
      \/ exists row, r = inr row /\ rowOf userId now event row
                     /\ pg_txn db' = pg_txn db ++ [row]).
Proof.
  unfold insertOne. cbn [client_query pg_query]. unfold bind, pg_call.
  destruct (pg_ok (pg_calls db)); cbn; intros [= <- <-].
  - split; [split; reflexivity |]. right. eexists. split; [reflexivity |].
    split; [| reflexivity].
    unfold rowOf, insertParams, nth_param. cbn. repeat split. now left.
  - split; [split; reflexivity |]. left. now eexists.
Qed.

(** On a pg client the callback only adds to the open transaction; when
    it returns, the rows of the whole batch are in it. *)
Lemma insertAll_pg (events : list EventInput) :
  forall db r db',
    insertAll pg_ok uuid now userId events PoolClient db = (r, db') ->
    unchanged db db'
    /\ forall rows, r = inr rows ->
         Forall2 (rowOf userId now) events rows
         /\ pg_txn db' = pg_txn db ++ rows.
Proof.
  induction events as [| event rest IH]; intros db r db' Hrun.
  - cbn in Hrun. injection Hrun as <- <-. split; [apply unchanged_refl |].
    intros rows [= <-]. rewrite app_nil_r. split; [constructor | reflexivity].
  - unfold insertAll in *. cbn [mapM] in Hrun.
    destruct (insertOne pg_ok uuid now userId PoolClient event db)
      as [[e | row] db1] eqn:Hone.
    + erewrite bind_inl in Hrun by exact Hone. injection Hrun as <- <-.
      apply insertOne_pg in Hone. split; [apply Hone | discriminate].
    + erewrite bind_inr in Hrun by exact Hone.
      apply insertOne_pg in Hone.
      destruct Hone as [Hsame1 [[e He] | [row' [Hr [Hof Htxn]]]]];
        [discriminate He |].
      injection Hr as <-.
      destruct (mapM (insertOne pg_ok uuid now userId PoolClient) rest db1)
        as [[e | rows] db2] eqn:Hrest.
      * erewrite bind_inl in Hrun by exact Hrest. injection Hrun as <- <-.
        destruct (IH _ _ _ Hrest) as [Hsame2 _].
        split; [eapply unchanged_trans; eassumption | discriminate].
      * erewrite bind_inr in Hrun by exact Hrest. cbn [ret] in Hrun.
        injection Hrun as <- <-.
        destruct (IH _ _ _ Hrest) as [Hsame2 Hrows].
        destruct (Hrows rows eq_refl) as [Hall Htxn2].
        split; [eapply unchanged_trans; eassumption |].
        intros rows' [= <-]. split; [now constructor |].
        rewrite Htxn2, Htxn. now rewrite <- app_assoc.
Qed.

Lemma pg_call_unchanged {A} (effect : Db -> A * Db) (db : Db)
    (r : Thrown + A) (db' : Db) :
  (forall d, unchanged d (snd (effect d))) ->
  pg_call pg_ok effect db = (r, db') -> unchanged db db'.
Proof.
  intros Heff. unfold pg_call. destruct (pg_ok (pg_calls db)).
  - match goal with
    | |- context [effect ?d] =>
        pose proof (Heff d) as Hd; destruct (effect d) as [a d2]
    end.
    intros [= <- <-]. exact Hd.
  - intros [= <- <-]. split; reflexivity.
Qed.

(** BEGIN, the inserts and COMMIT on a pg client. *)
Lemma pg_block (events : list EventInput) (db : Db)
    (r : Thrown + list MockEvent) (db' : Db) :
  (_ <- client_query pg_ok uuid now PoolClient BEGIN [] ;;
   result <- insertAll pg_ok uuid now userId events PoolClient ;;
   _ <- client_query pg_ok uuid now PoolClient COMMIT [] ;;
   ret result) db = (r, db') ->
  mock_events db' = mock_events db
  /\ (((exists e, r = inl e) /\ pg_events db' = pg_events db)
      \/ exists rows, r = inr rows /\ Forall2 (rowOf userId now) events rows
                      /\ pg_events db' = pg_events db ++ rows).
Proof.
  cbn [client_query pg_query]. unfold bind at 1.
  unfold pg_call at 1. destruct (pg_ok (pg_calls db)).
  2:{ intros [= <- <-]. split; [reflexivity |]. left. split; [now eexists | reflexivity]. }
  cbn [set_pg mock_events pg_events pg_txn pg_calls].
  unfold bind at 1.
  match goal with
  | |- context [insertAll _ _ _ _ _ _ ?d] =>
      destruct (insertAll pg_ok uuid now userId events PoolClient d)
        as [[e | rows] db1] eqn:Hins;
      apply insertAll_pg in Hins; destruct Hins as [[Hm Hp] Hrows]
  end; cbn [mock_events pg_events pg_txn] in Hm, Hp.
  - intros [= <- <-]. split; [exact Hm |]. left. split; [now eexists | exact Hp].
  - destruct (Hrows rows eq_refl) as [Hall Htxn]. cbn [pg_txn app] in Htxn.
    unfold bind, pg_call. destruct (pg_ok (pg_calls db1)).
    + cbn [ret set_pg]. intros [= <- <-]. cbn [mock_events pg_events].
      split; [exact Hm |]. right. exists rows.
      split; [reflexivity |]. split; [exact Hall |]. now rewrite Hp, Htxn.
    + intros [= <- <-]. cbn [mock_events pg_events].
      split; [exact Hm |]. left. split; [now eexists | exact Hp].
Qed.

Lemma transaction_allOrNothing (conn : Connection) (events : list EventInput)
    (db : Db) (r : Thrown + list MockEvent) (db' : Db) :
  transaction pg_ok uuid now conn (insertAll pg_ok uuid now userId events) db
  = (r, db') ->
  allOrNothing userId now events db r db'.
Proof.
  destruct conn; cbn [transaction].
  - (* pg, with the mock database as fallback *)
    unfold try_catch at 1. unfold bind at 1. unfold getClient, pg_call at 1.
    destruct (pg_ok (pg_calls db)).
    + cbn [fst snd]. unfold try_finally.
      match goal with
      | |- context [try_catch ?m ?h ?d] =>
          destruct (try_catch m h d) as [r1 db1] eqn:Hblock
      end.
      unfold try_catch in Hblock.
      match type of Hblock with
      | context [bind ?m ?k ?d] =>
          destruct (bind m k d) as [[e | rows] db0] eqn:Hpg;
          apply pg_block in Hpg; cbn [mock_events pg_events] in Hpg;
          destruct Hpg as [Hm [[[e' He] Hp] | [rows' [Hr [Hall Hp]]]]];
          try discriminate
      end.
      * (* the block threw: ROLLBACK, then the mock database *)
        assert (Hsame : unchanged db (release db1)).
        { cbn [client_query pg_query] in Hblock.
          unfold bind in Hblock.
          destruct (pg_call pg_ok _ db0) as [[e2 | a2] db2] eqn:Hrb;
            apply pg_call_unchanged in Hrb;
            try (intros d; split; reflexivity);
            cbn [throw] in Hblock; injection Hblock as <- <-;
            destruct Hrb as [Hm2 Hp2]; split; cbn [release set_pg mock_events pg_events];
            congruence. }
        assert (Hthrew : exists e1, r1 = inl e1).
        { cbn [client_query pg_query] in Hblock. unfold bind in Hblock.
          destruct (pg_call pg_ok _ db0) as [[e2 | a2] db2];
            cbn [throw] in Hblock; injection Hblock as <- <-; now eexists. }
        destruct Hthrew as [e1 ->].
        destruct (insertAll_mock events (release db1)) as [rows [Hmock Hall]].
        rewrite Hmock. intros [= <- <-]. right. exists rows.
        split; [reflexivity |]. split; [exact Hall |]. left.
        destruct Hsame as [Hm1 Hp1]. unfold pushed. cbn [mock_events pg_events].
        split; congruence.
      * (* committed *)
        injection Hr as <-. injection Hblock as <- <-.
        intros [= <- <-]. right. exists rows.
        split; [reflexivity |]. split; [exact Hall |]. right.
        cbn [release set_pg mock_events pg_events]. split; congruence.
    + (* no pg client: the mock database *)
      match goal with
      | |- context [insertAll _ _ _ _ _ _ ?d] =>
          destruct (insertAll_mock events d) as [rows [Hmock Hall]]
      end.
      rewrite Hmock. intros [= <- <-]. right. exists rows.
      split; [reflexivity |]. split; [exact Hall |]. left.
      unfold pushed. cbn [mock_events pg_events]. split; reflexivity.
  - destruct (insertAll_mock events db) as [rows [Hmock Hall]].
    rewrite Hmock. intros [= <- <-]. right. exists rows.
    split; [reflexivity |]. split; [exact Hall |]. left.
    unfold pushed. cbn [mock_events pg_events]. split; reflexivity.
  - (* the Supabase client has no query method *)
    destruct events as [| event rest].
    + cbn. intros [= <- <-]. right. exists [].
      split; [reflexivity |]. split; [constructor |]. left.
      rewrite app_nil_r. split; reflexivity.
    + unfold insertAll. cbn [mapM]. unfold insertOne at 1.
      cbn [client_query]. unfold bind, throw. intros [= <- <-].
      left. split; [now eexists | apply unchanged_refl].
Qed.

(** C2: whatever the connection module, the verdict of the validation
    and the behaviour of the pg server, a batch request leaves either no
    row of the batch or one row for each of its events, in order, in one
    store; an error reply leaves none, and a success reply counts them
    all. *)
Theorem batch_is_all_or_nothing (conn : Connection) (events : list EventInput)
    (db : Db) :
  let reply :=
    fst (postBatch pg_ok uuid now batchEventsSchema conn userId events db) in
  let db' :=
    snd (postBatch pg_ok uuid now batchEventsSchema conn userId events db) in
  let persistedAll :=
    exists rows,
      Forall2 (rowOf userId now) events rows
      /\ ((mock_events db' = mock_events db ++ rows
           /\ pg_events db' = pg_events db)
          \/ (pg_events db' = pg_events db ++ rows
              /\ mock_events db' = mock_events db)) in
  (unchanged db db' \/ persistedAll)
  /\ (forall e, reply = ReplyError e -> unchanged db db')
  /\ (forall n, reply = ReplyOk n -> n = length events /\ persistedAll).
Proof.
  cbn zeta. unfold postBatch.
  destruct (batchEventsSchema events) as [detail |].
  { cbn [fst snd]. split; [left; apply unchanged_refl |].
    split; [intros; apply unchanged_refl | discriminate]. }
  destruct (Nat.eqb (length events) 0).
  { cbn [fst snd]. split; [left; apply unchanged_refl |].
    split; [intros; apply unchanged_refl | discriminate]. }
  destruct (transaction pg_ok uuid now conn
              (insertAll pg_ok uuid now userId events) db)
    as [r db1] eqn:Hrun.
  apply transaction_allOrNothing in Hrun.
  destruct Hrun as [[[e ->] Hsame] | [rows [-> [Hall Hwhere]]]]; cbn [fst snd].
  - split; [now left |]. split; [intros; exact Hsame | discriminate].
  - split; [right; now exists rows |].
    split; [discriminate |].
    intros n [= <-]. split; [| now exists rows].
    symmetry. eapply Forall2_length. exact Hall.
Qed.

(** Two events through each connection module. *)
Lemma batch_on_mock_database :
  postBatch (fun _ => true) Samples.sampleId 2000 (fun _ => None)
    MockDatabase "user-1" Samples.twoInputs Samples.emptyDb
  = (ReplyOk 2,
     {| mock_events :=
          [ Samples.rowFor "000" "user-1" 2000 Samples.input1;
            Samples.rowFor "001" "user-1" 2000 Samples.input2 ];
        pg_events := []; pg_txn := []; pg_calls := 0 |}).
Proof. reflexivity. Qed.

Lemma batch_on_supabase_connection :
  postBatch (fun _ => true) Samples.sampleId 2000 (fun _ => None)
    SupabaseConnection "user-1" Samples.twoInputs Samples.emptyDb
  = (ReplyError ThrownByLibrary, Samples.emptyDb).
Proof. reflexivity. Qed.

(** The pg server fails the second insert (its fourth call): the
    transaction is rolled back and the whole batch goes to the mock
    database. *)
Lemma batch_on_failing_pg :
  let result :=
    postBatch (fun k => negb (Nat.eqb k 3)) Samples.sampleId 2000 (fun _ => None)
      DatabaseConnection "user-1" Samples.twoInputs Samples.emptyDb in
  fst result = ReplyOk 2
  /\ pg_events (snd result) = []
  /\ mock_events (snd result)
     = [ Samples.rowFor "000" "user-1" 2000 Samples.input1;
         Samples.rowFor "001" "user-1" 2000 Samples.input2 ].
Proof. repeat split. Qed.

Lemma batch_on_healthy_pg :
  let result :=
    postBatch (fun _ => true) Samples.sampleId 2000 (fun _ => None)
      DatabaseConnection "user-1" Samples.twoInputs Samples.emptyDb in
  fst result = ReplyOk 2
  /\ mock_events (snd result) = []
  /\ pg_events (snd result)
     = [ Samples.rowFor "000" "user-1" 2000 Samples.input1;
         Samples.rowFor "001" "user-1" 2000 Samples.input2 ].
Proof. repeat split. Qed.

End Ingestion.

(** ** URL redaction *)

Section ParamsFacts.
Import Url.

Lemma filter_filter_implied {A} (f g : A -> bool) (l : list A) :
  (forall a, f a = true -> g a = true) ->
  List.filter f (List.filter g l) = List.filter f l.
Proof.
  intros Himp. induction l as [| a l IH]; cbn; [reflexivity |].
  destruct (g a) eqn:Hg; cbn.
  - now rewrite IH.
  - destruct (f a) eqn:Hf; [| exact IH].
    apply Himp in Hf. congruence.
Qed.

Lemma filter_none_negb {A} (f : A -> bool) (l : list A) :
  List.filter f l = [] -> List.filter (fun a => negb (f a)) l = l.
Proof.
  induction l as [| a l IH]; cbn; [reflexivity |].
  destruct (f a); cbn; [discriminate |]. intros H. now rewrite IH.
Qed.

Lemma filter_negb_none {A} (f : A -> bool) (l : list A) :
  List.filter f (List.filter (fun a => negb (f a)) l) = [].
Proof.
  induction l as [| a l IH]; cbn; [reflexivity |].
  destruct (f a) eqn:Hf; cbn; [exact IH |]. now rewrite Hf.
Qed.

Lemma has_false_filter (l : Params) (name : string) :
  has l name = false <-> List.filter (named name) l = [].
Proof.
  unfold has. induction l as [| p l IH]; cbn; [tauto |].
  destruct (named name p); cbn; [split; discriminate | exact IH].
Qed.

Lemma set_keeps_others (l : Params) (p q v : string) :
  p <> q -> List.filter (named p) (set l q v) = List.filter (named p) l.
Proof.
  intros Hpq. induction l as [| [n v0] l IH]; cbn.
  - unfold named. cbn. destruct (String.eqb_spec q p); [congruence | reflexivity].
  - destruct (String.eqb_spec n q) as [-> | Hnq]; cbn.
    + unfold named at 1 3. cbn [fst].
      destruct (String.eqb_spec q p); [congruence |].
      apply filter_filter_implied. intros [n' v']. unfold named. cbn [fst].
      destruct (String.eqb_spec n' p) as [-> |]; [| discriminate].
      intros _. destruct (String.eqb_spec p q); [congruence | reflexivity].
    + now rewrite IH.
Qed.

Lemma set_settles (l : Params) (p v : string) :
  has l p = true -> List.filter (named p) (set l p v) = [(p, v)].
Proof.
  unfold has. induction l as [| [n v0] l IH]; cbn; [discriminate |].
  unfold named at 1. cbn [fst].
  destruct (String.eqb_spec n p) as [-> | Hn]; cbn.
  - intros _. unfold named at 1. cbn [fst]. rewrite String.eqb_refl.
    f_equal. apply filter_negb_none.
  - intros Hhas. unfold named at 1. cbn [fst].
    destruct (String.eqb_spec n p); [congruence | now apply IH].
Qed.

Lemma set_fixed (l : Params) (p v : string) :
  List.filter (named p) l = [(p, v)] -> set l p v = l.
Proof.
  induction l as [| [n v0] l IH]; cbn; [discriminate |].
  unfold named at 1. cbn [fst].
  destruct (String.eqb_spec n p) as [-> | Hn].
  - intros [= -> Hrest]. f_equal. now apply filter_none_negb.
  - intros H. now rewrite IH.
Qed.

Lemma set_nonempty (l : Params) (p v : string) : set l p v <> [].
Proof.
  destruct l as [| [n v0] l]; cbn; [discriminate |].
  destruct (String.eqb n p); discriminate.
Qed.

Lemma redactParam_fixed (l : Params) (p : string) :
  settled p l -> redactParam l p = l.
Proof.
  unfold redactParam. intros [Hnone | Hone].
  - apply has_false_filter in Hnone. now rewrite Hnone.
  - destruct (has l p); [now apply set_fixed | reflexivity].
Qed.

Lemma redactParam_settles (l : Params) (p : string) :
  settled p (redactParam l p).
Proof.
  unfold redactParam. destruct (has l p) eqn:Hhas.
  - right. now apply set_settles.
  - left. now apply has_false_filter.
Qed.

Lemma redactParam_keeps_settled (l : Params) (p q : string) :
  settled p l -> settled p (redactParam l q).
Proof.
  intros Hp. destruct (String.eqb_spec p q) as [-> | Hpq].
  - apply redactParam_settles.
  - unfold redactParam. destruct (has l q); [| exact Hp].
    unfold settled. now rewrite set_keeps_others.
Qed.

Lemma redactParams_keeps_settled (names : list string) (p : string) :
  forall l, settled p l -> settled p (redactParams names l).
Proof.
  unfold redactParams.
  induction names as [| q names IH]; intros l Hp; cbn; [exact Hp |].
  apply IH. now apply redactParam_keeps_settled.
Qed.

Lemma redactParams_settles (names : list string) (p : string) :
  forall l, In p names -> settled p (redactParams names l).
Proof.
  unfold redactParams.
  induction names as [| q names IH]; intros l Hin; cbn; [contradiction |].
  destruct Hin as [-> | Hin].
  - apply (redactParams_keeps_settled names p). apply redactParam_settles.
  - now apply IH.
Qed.

Lemma redactParams_fixed (names : list string) (l : Params) :
  (forall p, In p names -> settled p l) -> redactParams names l = l.
Proof.
  unfold redactParams.
  induction names as [| q names IH]; intros Hall; cbn; [reflexivity |].
  rewrite redactParam_fixed by (apply Hall; now left).
  apply IH. intros p Hp. apply Hall. now right.
Qed.

(** Redacting a redacted parameter list changes nothing. *)
Lemma redactParams_idempotent (names : list string) (l : Params) :
  redactParams names (redactParams names l) = redactParams names l.
Proof.
  apply redactParams_fixed. intros p Hp. now apply redactParams_settles.
Qed.

End ParamsFacts.

Section RedactionIdempotent.
Import Url.

Variable URL : Type.
Variable parseURL : string -> option URL.
Variable href : URL -> string.
Variable searchParams : URL -> Params.
Variable updateQuery : URL -> Params -> URL.

(** What the runtime's URL class is relied on for: the text of a parsed
    URL parses back to the same object, also after its query was written
    from a non-empty parameter list; the parameter list of an object is
    the one last written; writing the query replaces the former one. *)
Hypothesis reparse :
  forall s u, parseURL s = Some u -> parseURL (href u) = Some u.
Hypothesis reparse_updated :
  forall s u l, parseURL s = Some u -> l <> [] ->
    parseURL (href (updateQuery u l)) = Some (updateQuery u l).
Hypothesis params_updated :
  forall u l, searchParams (updateQuery u l) = l.
Hypothesis update_twice :
  forall u l l', updateQuery (updateQuery u l) l' = updateQuery u l'.

Local Abbreviation step := (redactStep URL searchParams updateQuery).

Lemma redactStep_updated (u : URL) (l : Params) (p : string) :
  step (updateQuery u l) p = updateQuery u (redactParam l p).
Proof.
  unfold step, redactStep, searchParams_set, redactParam.
  rewrite params_updated. destruct (has l p); [apply update_twice | reflexivity].
Qed.

Lemma fold_updated (names : list string) :
  forall u l,
    fold_left step names (updateQuery u l)
    = updateQuery u (redactParams names l).
Proof.
  induction names as [| p names IH]; intros u l; cbn; [reflexivity |].
  rewrite redactStep_updated. apply IH.
Qed.

(** The loop leaves the object alone, or writes the redacted list. *)
Lemma fold_cases (names : list string) :
  forall u,
    fold_left step names u = u
    \/ (redactParams names (searchParams u) <> []
        /\ fold_left step names u
           = updateQuery u (redactParams names (searchParams u))).
Proof.
  induction names as [| p names IH]; intros u; cbn; [now left |].
  unfold step at 2 4, redactStep, redactParam.
  destruct (has (searchParams u) p) eqn:Hhas.
  - right. unfold searchParams_set. fold step. rewrite fold_updated.
    split; [| reflexivity].
    assert (Hkeep : forall ns l, l <> [] -> redactParams ns l <> []).
    { induction ns as [| q ns IHns]; intros l Hl; cbn; [exact Hl |].
      apply IHns. unfold redactParam.
      destruct (has l q); [apply set_nonempty | exact Hl]. }
    apply Hkeep. apply set_nonempty.
  - fold step. apply IH.
Qed.

(** C5: redacting a redacted URL gives the same text. *)
Theorem redactSensitiveUrl_idempotent (url : string) :
  redactSensitiveUrl URL parseURL href searchParams updateQuery
    (redactSensitiveUrl URL parseURL href searchParams updateQuery url)
  = redactSensitiveUrl URL parseURL href searchParams updateQuery url.
Proof.
  unfold redactSensitiveUrl.
  destruct (parseURL url) as [u |] eqn:Hparse.
  - destruct (fold_cases sensitiveParams u) as [Hsame | [Hne Hupd]].
    + rewrite Hsame. rewrite (reparse url u Hparse). now rewrite Hsame.
    + rewrite Hupd.
      rewrite (reparse_updated url u _ Hparse Hne).
      rewrite fold_updated. now rewrite redactParams_idempotent.
  - now rewrite Hparse.
Qed.

End RedactionIdempotent.

Section QueryUrlFacts.
Import Url Url.QueryUrl.

Lemma append_cons (x : ascii) (a r : string) :
  (String x a ++ r = String x (a ++ r))%string.
Proof. reflexivity. Qed.

Lemma append_snoc (a r : string) (c : ascii) :
  ((a ++ String c EmptyString) ++ r = a ++ String c r)%string.
Proof.
  induction a as [| x a IH]; [reflexivity |].
  rewrite !append_cons. now rewrite IH.
Qed.

Lemma append_empty (a : string) : (a ++ EmptyString = a)%string.
Proof.
  induction a as [| x a IH]; [reflexivity |].
  rewrite append_cons. now rewrite IH.
Qed.

Lemma parse_name (n rest name value : string) (acc : Params) :
  parse (tag "n" n ++ rest) name value acc
  = parse rest (name ++ n) value acc.
Proof.
  revert name. induction n as [| c n IH]; intros name.
  - rewrite append_empty. reflexivity.
  - cbn [tag]. rewrite !append_cons. cbn [parse Ascii.eqb Bool.eqb].
    rewrite IH. now rewrite append_snoc.
Qed.

Lemma parse_value (v rest name value : string) (acc : Params) :
  parse (tag "v" v ++ rest) name value acc
  = parse rest name (value ++ v) acc.
Proof.
  revert value. induction v as [| c v IH]; intros value.
  - rewrite append_empty. reflexivity.
  - cbn [tag]. rewrite !append_cons. cbn [parse Ascii.eqb Bool.eqb].
    rewrite IH. now rewrite append_snoc.
Qed.

Lemma parse_href (l : Params) :
  forall acc, parse (href l) EmptyString EmptyString acc = Some (rev acc ++ l).
Proof.
  induction l as [| [n v] l IH]; intros acc; cbn [href].
  - cbn. now rewrite app_nil_r.
  - rewrite parse_name, parse_value. cbn [parse Ascii.eqb Bool.eqb].
    rewrite IH. cbn [rev]. rewrite <- app_assoc. reflexivity.
Qed.

Lemma parseURL_href (l : Params) : parseURL (href l) = Some l.
Proof. unfold parseURL. now rewrite parse_href. Qed.

Lemma redactSensitiveUrl_idempotent_witness :
  let url := href [("q", "rocq"); ("token", "abc"); ("token", "def")] in
  QueryUrl.redactSensitiveUrl (QueryUrl.redactSensitiveUrl url)
  = QueryUrl.redactSensitiveUrl url.
Proof.
  apply (redactSensitiveUrl_idempotent Params parseURL href searchParams
           updateQuery).
  - intros s u _. apply parseURL_href.
  - intros s u l _ _. apply parseURL_href.
  - reflexivity.
  - reflexivity.
Defined.

(** On that URL the token is replaced and its second occurrence dropped. *)
Lemma redactSensitiveUrl_example :
  QueryUrl.redactSensitiveUrl
    (href [("q", "rocq"); ("token", "abc"); ("token", "def")])
  = href [("q", "rocq"); ("token", "[REDACTED]")].
Proof. reflexivity. Qed.

End QueryUrlFacts.

(** ** More on URL redaction and the ignore list *)

Section RedactionFacts.
Import Url.

Lemma set_keeps_unnamed (g : string -> bool) (l : Params) (q v : string) :
  g q = false ->
  List.filter (fun p => g (fst p)) (set l q v)
  = List.filter (fun p => g (fst p)) l.
Proof.
  intros Hq. induction l as [| [n v0] l IH]; cbn.
  - now rewrite Hq.
  - destruct (String.eqb_spec n q) as [-> | Hn]; cbn.
    + rewrite Hq. apply filter_filter_implied.
      intros [n' v'] Hg. unfold named. cbn [fst] in *.
      destruct (String.eqb_spec n' q) as [-> |]; [congruence | reflexivity].
    + now rewrite IH.
Qed.

Lemma existsb_filter_implied {A} (f g : A -> bool) (l : list A) :
  (forall a, f a = true -> g a = true) ->
  existsb f (List.filter g l) = existsb f l.
Proof.
  intros Himp. induction l as [| a l IH]; cbn; [reflexivity |].
  destruct (g a) eqn:Hg; cbn; [now rewrite IH |].
  destruct (f a) eqn:Hf; [| exact IH].
  apply Himp in Hf. congruence.
Qed.

Lemma named_eq (name n v : string) : named name (n, v) = String.eqb n name.
Proof. reflexivity. Qed.

Lemma has_set (l : Params) (p q v : string) :
  has l q = true -> has (set l q v) p = has l p.
Proof.
  unfold has. induction l as [| [n v0] l IH]; cbn [existsb set];
    [discriminate |].
  rewrite !named_eq.
  destruct (String.eqb_spec n q) as [-> | Hn]; cbn [existsb orb].
  - intros _. rewrite !named_eq.
    destruct (String.eqb_spec q p) as [-> | Hqp]; [reflexivity |].
    cbn [orb]. apply existsb_filter_implied.
    intros [n' v']. rewrite !named_eq.
    destruct (String.eqb_spec n' p) as [-> |]; [| discriminate].
    intros _. destruct (String.eqb_spec p q); [congruence | reflexivity].
  - intros Hhas. rewrite !named_eq. now rewrite IH.
Qed.

Lemma redactParam_has (l : Params) (p q : string) :
  has (redactParam l q) p = has l p.
Proof.
  unfold redactParam. destruct (has l q) eqn:Hq; [| reflexivity].
  now apply has_set.
Qed.

(** X1: after redaction no pair under a listed name keeps its value, and
    each listed name occurs at most once. *)
Theorem redactParams_hides_values (l : Params) (name : string) :
  In name sensitiveParams ->
  (forall value, In (name, value) (redactParams sensitiveParams l) ->
     value = REDACTED)
  /\ length (List.filter (named name) (redactParams sensitiveParams l)) <= 1.
Proof.
  intros Hname.
  pose proof (redactParams_settles sensitiveParams name l Hname) as Hset.
  split.
  - intros value Hin.
    assert (Hf : In (name, value)
                   (List.filter (named name) (redactParams sensitiveParams l))).
    { apply filter_In. split; [exact Hin |]. unfold named. cbn.
      apply String.eqb_refl. }
    destruct Hset as [Hnone | Hone].
    + rewrite Hnone in Hf. contradiction.
    + rewrite Hone in Hf. destruct Hf as [[= <-] | []]. reflexivity.
  - destruct Hset as [-> | ->]; cbn; lia.
Qed.

Lemma redactParams_hides_values_witness :
  (forall value,
     In ("token", value)
       (redactParams sensitiveParams
          [("q", "rocq"); ("token", "abc"); ("token", "def")]) ->
     value = REDACTED)
  /\ length (List.filter (named "token")
               (redactParams sensitiveParams
                  [("q", "rocq"); ("token", "abc"); ("token", "def")])) <= 1.
Proof.
  apply (redactParams_hides_values
           [("q", "rocq"); ("token", "abc"); ("token", "def")] "token").
  cbn. tauto.
Defined.

(** X2: redaction leaves the pairs under other names as they are and in
    their order, and neither adds nor removes a parameter name. *)
Theorem redactParams_keeps_others (l : Params) :
  List.filter (fun p => negb (Js.includes sensitiveParams (fst p)))
    (redactParams sensitiveParams l)
  = List.filter (fun p => negb (Js.includes sensitiveParams (fst p))) l
  /\ forall name, has (redactParams sensitiveParams l) name = has l name.
Proof.
  assert (Hgen : forall names l0,
            (forall n, In n names -> In n sensitiveParams) ->
            List.filter (fun p => negb (Js.includes sensitiveParams (fst p)))
              (redactParams names l0)
            = List.filter (fun p => negb (Js.includes sensitiveParams (fst p))) l0
            /\ forall name, has (redactParams names l0) name = has l0 name).
  { unfold redactParams.
    induction names as [| q names IH]; intros l0 Hsub; cbn [fold_left];
      [split; reflexivity |].
    destruct (IH (redactParam l0 q)) as [Hkeep Hhas].
    { intros n Hn. apply Hsub. now right. }
    split.
    - rewrite Hkeep. unfold redactParam. destruct (has l0 q); [| reflexivity].
      apply (set_keeps_unnamed (fun n => negb (Js.includes sensitiveParams n))).
      apply negb_false_iff, includes_In, Hsub. now left.
    - intros name. rewrite Hhas. apply redactParam_has. }
  apply Hgen. auto.
Qed.

Lemma prefix_empty (s : string) : String.prefix EmptyString s = true.
Proof. destruct s; reflexivity. Qed.

Lemma prefix_app (p s t : string) :
  String.prefix p s = true -> String.prefix p (s ++ t)%string = true.
Proof.
  revert p. induction s as [| c s IH]; intros p.
  - destruct p as [| a p]; [intros _; apply prefix_empty | discriminate].
  - rewrite append_cons. cbn [String.prefix].
    destruct p as [| a p]; [reflexivity |].
    destruct (ascii_dec a c); [apply IH | discriminate].
Qed.

(** X3: whatever follows an ignored URL, the longer URL is ignored too;
    and no URL that begins with "http" is ignored. *)
Theorem shouldIgnoreUrl_by_prefix (u rest : string) :
  (shouldIgnoreUrl u = true -> shouldIgnoreUrl (u ++ rest)%string = true)
  /\ shouldIgnoreUrl ("http" ++ rest)%string = false.
Proof.
  split.
  - unfold shouldIgnoreUrl. rewrite !existsb_exists.
    intros [p [Hp Hpre]]. exists p. split; [exact Hp |].
    unfold Js.startsWith in *. now apply prefix_app.
  - reflexivity.
Qed.

End RedactionFacts.

(** ** More on the local event store *)

Section StoreFacts.
Import Types StorageManager.

(** X4: whatever the store held, after [storeEvent] it holds at most 1000
    events, the new one is the last of them, and the configuration, the
    token and the last sync instant are the former ones. *)
Theorem storeEvent_bounded (event : Event) (lid : string) (st : Storage) :
  length (getPendingEvents (storeEvent event lid st)) <= MAX_LOCAL_EVENTS
  /\ (exists kept,
        getPendingEvents (storeEvent event lid st)
        = kept ++ [mkLocalEvent lid event])
  /\ config (getData (storeEvent event lid st)) = config (getData st)
  /\ authToken (getData (storeEvent event lid st)) = authToken (getData st)
  /\ lastSync (getData (storeEvent event lid st)) = lastSync (getData st).
Proof.
  split; [| split; [| repeat split]].
  - rewrite storeEvent_pending, slice_last_length. lia.
  - rewrite storeEvent_pending. apply slice_last_snoc.
    unfold MAX_LOCAL_EVENTS. lia.
Qed.

(** X5: [storeEvent] records the snapshot of the event's tab when its tab
    id, URL and title are all truthy, and then [getTabInfo] returns it;
    the snapshots of the other tabs, and all of them when one of the
    three is falsy, are the former ones. *)
Theorem storeEvent_getTabInfo (event : Event) (lid : string) (st : Storage)
    (tabId : Z) :
  getTabInfo tabId (storeEvent event lid st)
  = if Js.truthy_num (tab_id event) && Js.truthy_string (url event)
       && Js.truthy_string (title event) && Z.eqb tabId (tab_id event)
    then Some {| ti_title := title event; ti_url := url event;
                 lastSeen := ts event |}
    else getTabInfo tabId st.
Proof.
  unfold getTabInfo, storeEvent. cbn [getData setData tabInfo].
  destruct (Js.truthy_num (tab_id event) && Js.truthy_string (url event)
            && Js.truthy_string (title event)); cbn [andb]; [| reflexivity].
  destruct (Z.eqb_spec tabId (tab_id event)) as [-> | Hne].
  - apply lookup_insert_eq.
  - apply lookup_insert_ne. congruence.
Qed.

(** X6: [removeTabInfo] forgets the snapshot of that tab only, also when
    there was none, and keeps the pending events. *)
Theorem removeTabInfo_getTabInfo (tabId other : Z) (st : Storage) :
  getTabInfo tabId (removeTabInfo tabId st) = None
  /\ (other <> tabId ->
      getTabInfo other (removeTabInfo tabId st) = getTabInfo other st)
  /\ getPendingEvents (removeTabInfo tabId st) = getPendingEvents st
  /\ (getTabInfo tabId st = None ->
      tabInfo (getData (removeTabInfo tabId st)) = tabInfo (getData st)).
Proof.
  unfold getTabInfo, removeTabInfo, getPendingEvents.
  cbn [getData setData tabInfo events].
  split; [apply lookup_delete_eq |].
  split; [intros Hne; apply lookup_delete_ne; congruence |].
  split; [reflexivity |].
  intros Hnone. now apply delete_id.
Qed.

Lemma includes_app (a b : list string) (x : string) :
  Js.includes (a ++ b) x = Js.includes a x || Js.includes b x.
Proof. unfold Js.includes. apply existsb_app. Qed.

Lemma filter_filter_andb {A} (f g : A -> bool) (l : list A) :
  List.filter f (List.filter g l) = List.filter (fun a => g a && f a) l.
Proof.
  induction l as [| a l IH]; cbn; [reflexivity |].
  destruct (g a); cbn; [destruct (f a); now rewrite IH | exact IH].
Qed.

(** X7: two acknowledgements in a row leave the pending events that one
    acknowledgement of both id lists leaves; so their order does not
    matter, and acknowledging the same ids again removes nothing more. *)
Theorem markEventsSynced_twice (ids1 ids2 : list string) (t1 t2 : Z)
    (st : Storage) :
  getPendingEvents (markEventsSynced ids2 t2 (markEventsSynced ids1 t1 st))
  = getPendingEvents (markEventsSynced (ids1 ++ ids2) t2 st)
  /\ getPendingEvents (markEventsSynced ids2 t2 (markEventsSynced ids1 t1 st))
     = getPendingEvents (markEventsSynced ids1 t1 (markEventsSynced ids2 t2 st))
  /\ getPendingEvents (markEventsSynced ids1 t2 (markEventsSynced ids1 t1 st))
     = getPendingEvents (markEventsSynced ids1 t1 st).
Proof.
  unfold getPendingEvents, markEventsSynced. cbn [getData setData events].
  rewrite !filter_filter_andb.
  split; [| split]; apply filter_ext; intros e.
  - rewrite includes_app. now destruct (Js.includes ids1 (localId e)),
      (Js.includes ids2 (localId e)).
  - now destruct (Js.includes ids1 (localId e)),
      (Js.includes ids2 (localId e)).
  - now destruct (Js.includes ids1 (localId e)).
Qed.

End StoreFacts.

(** ** More on the sync engine *)

Section SyncFacts.
Import Types StorageManager ApiClient.

Lemma batchLoop_accepting (net : Network) (all : list LocalEvent) :
  accepting net ->
  forall fuel i call synced sent,
    length all - i <= fuel ->
    fst (batchLoop net all fuel i call synced sent)
    = synced ++ map localId (skipn i all).
Proof.
  intros Hacc. induction fuel as [| fuel IH]; intros i call synced sent Hfuel.
  - cbn. rewrite skipn_all2 by lia. now rewrite app_nil_r.
  - cbn [batchLoop]. destruct (Nat.ltb_spec i (length all)) as [Hlt | Hge].
    + destruct (Hacc call) as [response [Hnet Hok]].
      unfold post. rewrite Hnet, Hok.
      rewrite IH by (unfold batchSize; lia).
      rewrite <- app_assoc. f_equal. rewrite <- map_app. f_equal.
      unfold Js.slice. replace (i + batchSize - i) with batchSize by lia.
      replace (i + batchSize) with (batchSize + i) by lia.
      rewrite <- skipn_skipn. apply firstn_skipn.
    + cbn. rewrite skipn_all2 by lia. now rewrite app_nil_r.
Qed.

Lemma batchLoop_refusing (net : Network) (all : list LocalEvent) :
  refusing net ->
  forall fuel i call synced sent,
    fst (batchLoop net all fuel i call synced sent) = synced.
Proof.
  intros Href. induction fuel as [| fuel IH]; intros i call synced sent;
    [reflexivity |].
  cbn [batchLoop]. destruct (Nat.ltb i (length all)); [| reflexivity].
  unfold post. destruct (net call) as [response |] eqn:Hnet; [| reflexivity].
  rewrite (Href call response Hnet). apply IH.
Qed.

Lemma slice_length {A} (i : nat) (l : list A) :
  i < length l ->
  1 <= length (Js.slice i (i + batchSize) l) <= batchSize.
Proof.
  intros Hi. unfold Js.slice. rewrite length_firstn, length_skipn.
  unfold batchSize. lia.
Qed.

Lemma batchLoop_sizes (net : Network) (all : list LocalEvent) :
  forall fuel i call synced sent,
    Forall (fun body : list Event => 1 <= length body <= batchSize) sent ->
    Forall (fun body : list Event => 1 <= length body <= batchSize)
      (snd (batchLoop net all fuel i call synced sent)).
Proof.
  induction fuel as [| fuel IH]; intros i call synced sent Hsent;
    [exact Hsent |].
  cbn [batchLoop]. destruct (Nat.ltb_spec i (length all)) as [Hlt | Hge];
    [| exact Hsent].
  assert (Hsent' : Forall (fun body : list Event => 1 <= length body <= batchSize)
                     (sent ++ [map payload (Js.slice i (i + batchSize) all)])).
  { apply Forall_app. split; [exact Hsent |]. constructor; [| constructor].
    rewrite length_map. now apply slice_length. }
  destruct (post net call); [now apply IH | exact Hsent'].
Qed.

Lemma batchLoop_count (net : Network) (all : list LocalEvent) :
  forall fuel i call synced sent,
    let out := snd (batchLoop net all fuel i call synced sent) in
    (length all <= i -> out = sent)
    /\ (i < length all ->
        batchSize * length out
        <= batchSize * length sent + (length all - i) + (batchSize - 1)).
Proof.
  unfold batchSize.
  induction fuel as [| fuel IH]; intros i call synced sent; cbn zeta.
  - cbn. split; [reflexivity | lia].
  - cbn [batchLoop].
    destruct (Nat.ltb_spec i (length all)) as [Hlt | Hge];
      [| cbn; split; [reflexivity | lia]].
    split; [lia |]. intros _.
    destruct (post net call) as [response |].
    + match goal with
      | |- context [batchLoop net all fuel ?i' ?c' ?s' ?t'] =>
          destruct (IH i' c' s' t') as [Hdone Hmore]
      end.
      cbn zeta in Hdone, Hmore. unfold batchSize in *.
      destruct (Nat.le_gt_cases (length all) (i + 50)) as [Hlast | Hnext].
      * rewrite (Hdone Hlast). rewrite length_app. cbn [length]. lia.
      * specialize (Hmore Hnext). rewrite length_app in Hmore.
        cbn [length] in Hmore. lia.
    + cbn [snd]. rewrite length_app. cbn [length]. lia.
Qed.

Lemma filter_none {A} (keep : A -> bool) (l : list A) :
  (forall a, In a l -> keep a = false) -> List.filter keep l = [].
Proof.
  induction l as [| a l IH]; cbn; intros H; [reflexivity |].
  rewrite (H a) by now left. apply IH. intros b Hb. apply H. now right.
Qed.

(** X8: when every POST of a cycle is answered with success, the cycle
    empties the queue, and the store too when the client has the storage
    manager. *)
Theorem sync_accepted_drains (net : Network) (now : Z) (s : System) :
  accepting net ->
  syncInProgress (api s) = false ->
  Js.truthy_opt (ApiClient.authToken (api s)) = true ->
  let s' := fst (syncPendingEvents net now s) in
  eventQueue (api s') = []
  /\ (storageManager (api s) = true -> getPendingEvents (storage s') = []).
Proof.
  intros Hacc Hidle Htoken. cbn zeta. unfold syncPendingEvents.
  rewrite Hidle, Htoken. cbn [negb orb].
  destruct (Nat.eqb_spec (length (allEvents s)) 0) as [Hempty | Hsome].
  - cbn [fst api storage setQueue eventQueue].
    apply length_zero_iff_nil in Hempty. unfold allEvents in Hempty.
    apply app_eq_nil in Hempty. destruct Hempty as [Hstore Hqueue].
    split; [exact Hqueue |]. intros Hwith. now rewrite Hwith in Hstore.
  - destruct (batchLoop net (allEvents s) (length (allEvents s)) 0 0 [] [])
      as [synced sent] eqn:Hloop.
    assert (Hsynced : synced = map localId (allEvents s)).
    { pose proof (batchLoop_accepting net (allEvents s) Hacc
                    (length (allEvents s)) 0 0 [] []) as H.
      rewrite Hloop in H. cbn [fst skipn app] in H. apply H. lia. }
    cbn [fst api storage setQueue eventQueue].
    split.
    + apply filter_none. intros e He. apply negb_false_iff, includes_In.
      rewrite Hsynced. apply in_map. unfold allEvents. apply in_or_app. now right.
    + intros Hwith. rewrite Hwith, andb_true_r.
      assert (Hpos : Nat.ltb 0 (length synced) = true).
      { apply Nat.ltb_lt. rewrite Hsynced, length_map. lia. }
      rewrite Hpos. unfold getPendingEvents, markEventsSynced.
      cbn [getData setData events].
      apply filter_none. intros e He. apply negb_false_iff, includes_In.
      rewrite Hsynced. apply in_map. unfold allEvents. rewrite Hwith.
      apply in_or_app. now left.
Qed.

Lemma sync_accepted_drains_witness :
  let s' := fst (syncPendingEvents Samples.allAccepted 2000 Samples.system120) in
  eventQueue (api s') = []
  /\ (storageManager (api Samples.system120) = true ->
      getPendingEvents (storage s') = []).
Proof.
  apply (sync_accepted_drains Samples.allAccepted 2000 Samples.system120).
  - intros k. exists Samples.http200. split; reflexivity.
  - reflexivity.
  - reflexivity.
Defined.

(** X9: every POST of a cycle carries between 1 and 50 events, and a
    cycle over n pending events makes fewer than n/50 + 1 POSTs. *)
Theorem sync_batches_bounded (net : Network) (now : Z) (s : System) :
  let sent := snd (syncPendingEvents net now s) in
  Forall (fun body : list Event => 1 <= length body <= 50) sent
  /\ 50 * length sent < length (allEvents s) + 50.
Proof.
  cbn zeta. unfold syncPendingEvents.
  destruct (syncInProgress (api s)
            || negb (Js.truthy_opt (ApiClient.authToken (api s)))).
  { cbn. split; [constructor | lia]. }
  destruct (Nat.eqb_spec (length (allEvents s)) 0) as [Hempty | Hsome].
  { cbn. split; [constructor | lia]. }
  pose proof (batchLoop_sizes net (allEvents s) (length (allEvents s))
                0 0 [] [] (List.Forall_nil _)) as Hsizes.
  destruct (batchLoop_count net (allEvents s) (length (allEvents s))
              0 0 [] []) as [_ Hcount].
  cbn zeta in Hcount.
  destruct (batchLoop net (allEvents s) (length (allEvents s)) 0 0 [] [])
    as [synced sent].
  cbn [snd] in *. split; [exact Hsizes |].
  unfold batchSize in Hcount. cbn [length] in Hcount. lia.
Qed.

(** X10: a cycle in which no POST is answered with success, whether the
    requests are rejected or refused, leaves the store and the client as
    they were. *)
Theorem sync_refused_keeps_everything (net : Network) (now : Z) (s : System) :
  refusing net ->
  fst (syncPendingEvents net now s) = s.
Proof.
  intros Href. unfold syncPendingEvents.
  destruct (syncInProgress (api s)) eqn:Hbusy; [reflexivity |].
  destruct (negb (Js.truthy_opt (ApiClient.authToken (api s))));
    [reflexivity |].
  cbn [orb].
  assert (Hsame : {| storage := storage s;
                     api := setQueue (eventQueue (api s)) false (api s) |} = s).
  { destruct s as [st [base token queue busy withStorage]].
    cbn in *. now subst busy. }
  destruct (Nat.eqb (length (allEvents s)) 0); [exact Hsame |].
  pose proof (batchLoop_refusing net (allEvents s) Href
                (length (allEvents s)) 0 0 [] []) as Hnone.
  destruct (batchLoop net (allEvents s) (length (allEvents s)) 0 0 [] [])
    as [synced sent].
  cbn [fst] in *. subst synced. cbn [length Nat.ltb Nat.leb andb].
  rewrite filter_all by reflexivity. exact Hsame.
Qed.

Lemma sync_refused_keeps_everything_witness :
  fst (syncPendingEvents (fun _ => Some Samples.http500) 2000 Samples.system120)
  = Samples.system120.
Proof.
  apply (sync_refused_keeps_everything (fun _ => Some Samples.http500) 2000
           Samples.system120).
  intros k response [= <-]. reflexivity.
Defined.

Lemma slice_In {A} (i j : nat) (l : list A) (a : A) :
  In a (Js.slice i j l) -> In a l.
Proof.
  unfold Js.slice. intros H.
  rewrite <- (firstn_skipn i l). apply in_or_app. right.
  rewrite <- (firstn_skipn (j - i) (skipn i l)). apply in_or_app. now left.
Qed.

(** An id acknowledged by the loop is the local id of an event of the
    sequence whose payload is in one of the POST bodies. *)
Lemma batchLoop_acknowledged (net : Network) (all : list LocalEvent) :
  forall fuel i call synced sent lid,
    In lid (fst (batchLoop net all fuel i call synced sent)) ->
    In lid synced
    \/ exists e, In e all /\ localId e = lid
                 /\ In (payload e)
                      (concat (snd (batchLoop net all fuel i call synced sent))).
Proof.
  induction fuel as [| fuel IH]; intros i call synced sent lid Hin;
    [now left |].
  cbn [batchLoop] in *. destruct (Nat.ltb i (length all)); [| now left].
  destruct (post net call) as [response |]; [| now left].
  destruct (IH _ _ _ _ _ Hin) as [Hold | Hnew]; [| now right].
  destruct (success response); [| now left].
  apply in_app_or in Hold. destruct Hold as [Hold | Hbatch]; [now left |].
  right. apply in_map_iff in Hbatch. destruct Hbatch as [e [Hid He]].
  exists e. split; [now apply slice_In in He |]. split; [exact Hid |].
  match goal with
  | |- context [batchLoop net all fuel ?i' ?c' ?s' ?t'] =>
      destruct (batchLoop_sent net all fuel i' c' s' t') as [n Hn]
  end.
  rewrite Hn. apply in_or_app. left. rewrite concat_app.
  apply in_or_app. right. cbn [concat]. rewrite app_nil_r. now apply in_map.
Qed.

(** X11: an event leaves the store or the queue in a cycle only if an
    event of the pending sequence with the same local id was put in one
    of the POST bodies of that cycle. *)
Theorem sync_removes_only_sent (net : Network) (now : Z) (s : System)
    (e : LocalEvent) :
  let s' := fst (syncPendingEvents net now s) in
  (In e (getPendingEvents (storage s))
   /\ ~ In e (getPendingEvents (storage s')))
  \/ (In e (eventQueue (api s)) /\ ~ In e (eventQueue (api s'))) ->
  exists e', In e' (allEvents s) /\ localId e' = localId e
             /\ In (payload e') (concat (snd (syncPendingEvents net now s))).
Proof.
  cbn zeta. unfold syncPendingEvents.
  destruct (syncInProgress (api s)
            || negb (Js.truthy_opt (ApiClient.authToken (api s)))).
  { cbn. tauto. }
  destruct (Nat.eqb (length (allEvents s)) 0).
  { cbn. tauto. }
  pose proof (batchLoop_acknowledged net (allEvents s)
                (length (allEvents s)) 0 0 [] [] (localId e)) as Hack.
  destruct (batchLoop net (allEvents s) (length (allEvents s)) 0 0 [] [])
    as [synced sent].
  cbn [fst snd api storage setQueue eventQueue] in *.
  intros Hgone.
  assert (Hin : In (localId e) synced).
  { apply includes_In.
    destruct (Js.includes synced (localId e)) eqn:Hinc; [reflexivity |].
    exfalso. destruct Hgone as [[Hbefore Hafter] | [Hbefore Hafter]];
      apply Hafter.
    - destruct (Nat.ltb 0 (length synced) && storageManager (api s));
        [| exact Hbefore].
      unfold getPendingEvents, markEventsSynced. cbn [getData setData events].
      apply filter_In. split; [exact Hbefore | now rewrite Hinc].
    - apply filter_In. split; [exact Hbefore | now rewrite Hinc]. }
  destruct (Hack Hin) as [[] | Hex]. exact Hex.
Qed.

Lemma sync_removes_only_sent_witness :
  exists e', In e' (allEvents Samples.system3)
             /\ localId e' = "q"
             /\ In (payload e')
                  (concat (snd (syncPendingEvents Samples.allAccepted 2000
                                  Samples.system3))).
Proof.
  apply (sync_removes_only_sent Samples.allAccepted 2000 Samples.system3
           (mkLocalEvent "q" (Samples.sampleEvent 5))).
  right. split; [left; reflexivity | intros H; exact H].
Defined.

(** X12: a sync cycle changes nothing but the pending events, the queue
    and the last sync instant: the base URL, the token, the in-flight
    flag as it stood before the call, the tab snapshots and the stored
    configuration and token are the former ones; and a call made while a
    cycle is in flight does nothing at all. *)
Theorem sync_frame (net : Network) (now : Z) (s : System) :
  let s' := fst (syncPendingEvents net now s) in
  baseUrl (api s') = baseUrl (api s)
  /\ ApiClient.authToken (api s') = ApiClient.authToken (api s)
  /\ storageManager (api s') = storageManager (api s)
  /\ syncInProgress (api s') = syncInProgress (api s)
  /\ tabInfo (getData (storage s')) = tabInfo (getData (storage s))
  /\ config (getData (storage s')) = config (getData (storage s))
  /\ StorageManager.authToken (getData (storage s'))
     = StorageManager.authToken (getData (storage s))
  /\ (syncInProgress (api s) = true -> syncPendingEvents net now s = (s, [])).
Proof.
  cbn zeta. unfold syncPendingEvents.
  destruct (syncInProgress (api s)) eqn:Hbusy; cbn [orb].
  { cbn [fst]. rewrite ?Hbusy. repeat split. }
  destruct (negb (Js.truthy_opt (ApiClient.authToken (api s)))).
  { cbn [fst]. rewrite ?Hbusy. repeat split; discriminate. }
  destruct (Nat.eqb (length (allEvents s)) 0).
  { cbn. repeat split; discriminate. }
  destruct (batchLoop net (allEvents s) (length (allEvents s)) 0 0 [] [])
    as [synced sent].
  cbn [fst api storage setQueue baseUrl ApiClient.authToken storageManager
       syncInProgress].
  destruct (Nat.ltb 0 (length synced) && storageManager (api s));
    repeat split; discriminate.
Qed.

(** Calls [call] to [call + j - 1] are answered with success and call
    [call + j] is rejected: the loop acknowledges the events of the first
    [j] batches from [i] on and stops after one more POST. *)
Lemma batchLoop_rejected (net : Network) (all : list LocalEvent) :
  forall j fuel i call synced sent,
    (forall k, call <= k < call + j ->
       exists response,
         net k = Some response /\ success (handleResponse response) = true) ->
    net (call + j) = None ->
    i + j * batchSize < length all ->
    j < fuel ->
    let out := batchLoop net all fuel i call synced sent in
    fst out = synced ++ map localId (firstn (j * batchSize) (skipn i all))
    /\ length (snd out) = length sent + S j
    /\ concat (snd out)
       = concat sent ++ map payload (firstn (S j * batchSize) (skipn i all)).
Proof.
  induction j as [| j IH]; intros fuel i call synced sent Hacc Hrej Hlen Hfuel;
    (destruct fuel as [| fuel]; [lia |]); cbn zeta.
  - rewrite Nat.add_0_r in Hrej.
    rewrite batchLoop_break by (assumption || lia).
    cbn [fst snd firstn map]. rewrite app_nil_r, length_app, concat_app.
    cbn [length concat]. rewrite app_nil_r. unfold Js.slice.
    replace (i + batchSize - i) with batchSize by lia.
    replace (1 * batchSize) with batchSize by lia.
    repeat split; try reflexivity; lia.
  - cbn [batchLoop]. destruct (Nat.ltb_spec i (length all)) as [_ | Hge];
      [| unfold batchSize in *; lia].
    destruct (Hacc call) as [response [Hnet Hok]]; [lia |].
    unfold post. rewrite Hnet, Hok.
    match goal with
    | |- context [batchLoop net all fuel ?i' ?c' ?s' ?t'] =>
        destruct (IH fuel i' c' s' t') as [Hfst [Hcount Hconcat]]
    end.
    + intros k Hk. apply Hacc. lia.
    + replace (S call + j) with (call + S j) by lia. exact Hrej.
    + unfold batchSize in *. lia.
    + lia.
    + cbn zeta in Hfst, Hcount, Hconcat.
      rewrite Hfst, Hcount, Hconcat. unfold Js.slice.
      replace (i + batchSize - i) with batchSize by lia.
      replace (i + batchSize) with (batchSize + i) by lia.
      rewrite <- skipn_skipn.
      replace (S (S j) * batchSize) with (batchSize + S j * batchSize) by lia.
      replace (S j * batchSize) with (batchSize + j * batchSize) by lia.
      rewrite !firstn_plus, !map_app, length_app, concat_app.
      cbn [length concat]. rewrite app_nil_r, <- !app_assoc.
      repeat split; try reflexivity; lia.
Qed.

(** X26: when the first [j] POSTs of a cycle are answered with success
    and the next one is rejected by [fetch], the cycle makes exactly
    [j + 1] POSTs, which carry the first 50 (j + 1) events of the
    sequence, and only the events whose local id is among the first
    50 j leave the queue and, with the storage manager, the store. *)
Theorem sync_rejected_stops (net : Network) (now : Z) (s : System) (j : nat) :
  syncInProgress (api s) = false ->
  Js.truthy_opt (ApiClient.authToken (api s)) = true ->
  (forall k, k < j ->
     exists response,
       net k = Some response /\ success (handleResponse response) = true) ->
  net j = None ->
  j * 50 < length (allEvents s) ->
  let result := syncPendingEvents net now s in
  let ids := map localId (firstn (j * 50) (allEvents s)) in
  length (snd result) = S j
  /\ concat (snd result) = map payload (firstn (S j * 50) (allEvents s))
  /\ eventQueue (api (fst result))
     = List.filter (fun e => negb (Js.includes ids (localId e)))
         (eventQueue (api s))
  /\ getPendingEvents (storage (fst result))
     = if storageManager (api s)
       then List.filter (fun e => negb (Js.includes ids (localId e)))
              (getPendingEvents (storage s))
       else getPendingEvents (storage s).
Proof.
  intros Hidle Htoken Hacc Hrej Hlen. cbn zeta. unfold syncPendingEvents.
  rewrite Hidle, Htoken. cbn [negb orb].
  destruct (Nat.eqb_spec (length (allEvents s)) 0) as [Hzero | _]; [lia |].
  destruct (batchLoop_rejected net (allEvents s) j (length (allEvents s))
              0 0 [] []) as [Hfst [Hcount Hconcat]].
  - intros k Hk. apply Hacc. lia.
  - exact Hrej.
  - unfold batchSize. lia.
  - lia.
  - cbn zeta in Hfst, Hcount, Hconcat.
    destruct (batchLoop net (allEvents s) (length (allEvents s)) 0 0 [] [])
      as [synced sent].
    cbn [fst snd app length concat] in *. unfold batchSize in *.
    change (skipn 0 (allEvents s)) with (allEvents s) in *.
    subst synced. cbn [fst snd api storage setQueue eventQueue].
    split; [exact Hcount |]. split; [exact Hconcat |]. split; [reflexivity |].
    destruct (storageManager (api s)).
    + rewrite andb_true_r.
      destruct (Nat.ltb_spec 0
                  (length (map localId (firstn (j * 50) (allEvents s)))))
        as [Hpos | Hnone].
      * reflexivity.
      * assert (Hnil : map localId (firstn (j * 50) (allEvents s)) = []).
        { apply length_zero_iff_nil. lia. }
        rewrite Hnil. now rewrite filter_all by reflexivity.
    + now rewrite andb_false_r.
Qed.

Lemma sync_rejected_stops_witness :
  let result :=
    syncPendingEvents Samples.secondRejected 2000 Samples.system120 in
  let ids := map localId (firstn (1 * 50) (allEvents Samples.system120)) in
  length (snd result) = 2
  /\ concat (snd result)
     = map payload (firstn (2 * 50) (allEvents Samples.system120))
  /\ eventQueue (api (fst result))
     = List.filter (fun e => negb (Js.includes ids (localId e)))
         (eventQueue (api Samples.system120))
  /\ getPendingEvents (storage (fst result))
     = if storageManager (api Samples.system120)
       then List.filter (fun e => negb (Js.includes ids (localId e)))
              (getPendingEvents (storage Samples.system120))
       else getPendingEvents (storage Samples.system120).
Proof.
  apply (sync_rejected_stops Samples.secondRejected 2000 Samples.system120 1).
  - reflexivity.
  - reflexivity.
  - intros k Hk. exists Samples.http200.
    destruct k as [| k]; [split; reflexivity | lia].
  - reflexivity.
  - vm_compute. lia.
Defined.

End SyncFacts.

(** ** Runs of the extension *)

Section RunFacts.
Import Types StorageManager ApiClient TabEventHandler Extension.

Variable redact : string -> string.

Lemma slice_last_In {A} (n : nat) (l : list A) (a : A) :
  In a (Js.slice_last n l) -> In a l.
Proof.
  unfold Js.slice_last. intros H.
  rewrite <- (firstn_skipn (length l - n) l). apply in_or_app. now right.
Qed.

Lemma or_string_truthy (o : option string) (d : string) :
  Js.truthy_string d = true -> Js.truthy_string (Js.or_string o d) = true.
Proof.
  intros Hd. unfold Js.or_string. destruct o as [x |]; [| exact Hd].
  destruct (Js.truthy_string x) eqn:Hx; [exact Hx | exact Hd].
Qed.

Lemma storeEvent_In (event : Event) (lid : string) (st : Storage)
    (e : LocalEvent) :
  In e (getPendingEvents (storeEvent event lid st)) ->
  In e (getPendingEvents st) \/ e = mkLocalEvent lid event.
Proof.
  rewrite storeEvent_pending. intros H. apply slice_last_In in H.
  apply in_app_or in H. destruct H as [H | [H | []]]; [now left | now right].
Qed.

Lemma storeEvent_snapshot (event : Event) (lid : string) (st : Storage)
    (tabId : Z) (info : TabInfo) :
  getTabInfo tabId (storeEvent event lid st) = Some info ->
  getTabInfo tabId st = Some info
  \/ (info = {| ti_title := title event; ti_url := url event;
                lastSeen := ts event |}
      /\ tabId = tab_id event
      /\ Js.truthy_string (url event) = true
      /\ Js.truthy_string (title event) = true).
Proof.
  unfold getTabInfo, storeEvent. cbn [getData setData tabInfo].
  destruct (Js.truthy_num (tab_id event)); cbn [andb]; [| now left].
  destruct (Js.truthy_string (url event)); cbn [andb]; [| now left].
  destruct (Js.truthy_string (title event)); [| now left].
  destruct (Z.eq_dec (tab_id event) tabId) as [<- | Hne].
  - rewrite lookup_insert_eq. intros [= <-]. now right.
  - rewrite lookup_insert_ne by exact Hne. now left.
Qed.

Lemma storeEvent_snapshot_hit (event : Event) (lid : string) (st : Storage) :
  Js.truthy_num (tab_id event) = true ->
  Js.truthy_string (url event) = true ->
  Js.truthy_string (title event) = true ->
  getTabInfo (tab_id event) (storeEvent event lid st)
  = Some {| ti_title := title event; ti_url := url event;
            lastSeen := ts event |}.
Proof.
  intros Hid Hurl Htitle. unfold getTabInfo, storeEvent.
  cbn [getData setData tabInfo]. rewrite Hid, Hurl, Htitle. cbn [andb].
  apply lookup_insert_eq.
Qed.

Lemma removeTabInfo_snapshot (tabId k : Z) (st : Storage) (info : TabInfo) :
  getTabInfo k (removeTabInfo tabId st) = Some info ->
  getTabInfo k st = Some info.
Proof.
  unfold getTabInfo, removeTabInfo. cbn [getData setData tabInfo].
  intros H. apply lookup_delete_Some in H. tauto.
Qed.

(** Storing and queueing an event with a title and an empty or captured
    URL keeps the system sound. *)
Lemma record_sound (event : Event) (forget : option Z) (f : Fresh)
    (s : System) :
  sound redact s ->
  url event = EmptyString \/ captured redact (url event) ->
  Js.truthy_string (title event) = true ->
  sound redact (fst (record event forget f s)).
Proof.
  intros [Hev [Hinfo Hcap]] Hurl Htitle. unfold record, queueEvent.
  cbn [fst storage api eventQueue].
  assert (Hpending :
    getPendingEvents
      match forget with
      | Some tabId => removeTabInfo tabId (storeEvent event (storeId f) (storage s))
      | None => storeEvent event (storeId f) (storage s)
      end
    = getPendingEvents (storeEvent event (storeId f) (storage s))).
  { destruct forget; reflexivity. }
  unfold sound. cbn [storage api eventQueue].
  split; [| split].
  - intros e He. rewrite Hpending in He.
    destruct He as [He | He].
    + apply storeEvent_In in He. destruct He as [He | ->].
      * apply Hev. now left.
      * cbn [payload]. now split.
    + apply in_app_or in He. destruct He as [He | [<- | []]].
      * apply Hev. now right.
      * cbn [payload]. now split.
  - intros k info Hk.
    assert (Hstored : getTabInfo k (storeEvent event (storeId f) (storage s))
                      = Some info).
    { destruct forget as [tabId |]; [| exact Hk].
      now apply removeTabInfo_snapshot in Hk. }
    apply storeEvent_snapshot in Hstored.
    destruct Hstored as [Hold | [-> [_ [Hu Ht]]]]; [now apply (Hinfo k) |].
    cbn [ti_url ti_title]. split; [| now split].
    destruct Hurl as [Hempty | Hcaptured]; [| exact Hcaptured].
    rewrite Hempty in Hu. discriminate Hu.
  - rewrite Hpending, storeEvent_pending, slice_last_length. lia.
Qed.

Lemma handleTabEvent_sound (tab : Tab) (eventType : EventType) (f : Fresh)
    (s : System) :
  sound redact s -> sound redact (fst (handleTabEvent redact tab eventType f s)).
Proof.
  intros Hs. unfold handleTabEvent.
  destruct (id tab) as [tabId |]; [| exact Hs].
  destruct (tab_url tab) as [u |]; [| exact Hs].
  destruct (Js.truthy_num tabId); cbn [negb orb]; [| exact Hs].
  destruct (Js.truthy_string u) eqn:Hu; cbn [negb orb]; [| exact Hs].
  destruct (negb (Js.truthy_num (windowId tab))); [exact Hs |].
  destruct (Url.shouldIgnoreUrl u) eqn:Hign; [exact Hs |].
  apply record_sound; cbn [url title]; [exact Hs | |].
  - right. now exists u.
  - now apply or_string_truthy.
Qed.

Lemma handleTabClose_sound (tabId wId : Z) (f : Fresh) (s : System) :
  sound redact s -> sound redact (fst (handleTabClose tabId wId f s)).
Proof.
  intros Hs. unfold handleTabClose.
  apply record_sound; cbn [url title]; [exact Hs | |].
  - destruct Hs as [_ [Hinfo _]].
    destruct (getTabInfo tabId (storage s)) as [info |] eqn:Hget;
      cbn [option_map Js.or_string]; [| now left].
    destruct (Hinfo tabId info Hget) as [Hcaptured [Hu _]].
    rewrite Hu. now right.
  - now apply or_string_truthy.
Qed.

Lemma syncPendingEvents_effect (net : Network) (now : Z) (s : System) :
  exists ids,
    (storage (fst (syncPendingEvents net now s)) = storage s
     \/ storage (fst (syncPendingEvents net now s))
        = markEventsSynced ids now (storage s))
    /\ eventQueue (api (fst (syncPendingEvents net now s)))
       = List.filter (fun e => negb (Js.includes ids (localId e)))
           (eventQueue (api s)).
Proof.
  unfold syncPendingEvents.
  destruct (syncInProgress (api s)
            || negb (Js.truthy_opt (ApiClient.authToken (api s)))).
  { exists []. cbn [fst]. split; [now left |].
    now rewrite filter_all by reflexivity. }
  destruct (Nat.eqb (length (allEvents s)) 0).
  { exists []. cbn [fst storage api setQueue eventQueue]. split; [now left |].
    now rewrite filter_all by reflexivity. }
  destruct (batchLoop net (allEvents s) (length (allEvents s)) 0 0 [] [])
    as [synced sent].
  exists synced. cbn [fst storage api setQueue eventQueue].
  split; [| reflexivity].
  destruct (Nat.ltb 0 (length synced) && storageManager (api s));
    [now right | now left].
Qed.

Lemma syncPendingEvents_sound (net : Network) (now : Z) (s : System) :
  sound redact s -> sound redact (fst (syncPendingEvents net now s)).
Proof.
  intros [Hev [Hinfo Hcap]].
  destruct (syncPendingEvents_effect net now s) as [ids [Hst Hq]].
  unfold sound. rewrite Hq.
  assert (Hsub : forall e,
            In e (getPendingEvents (storage (fst (syncPendingEvents net now s))))
            -> In e (getPendingEvents (storage s))).
  { intros e. destruct Hst as [-> | ->]; [tauto |].
    unfold getPendingEvents, markEventsSynced. cbn [getData setData events].
    intros H. apply filter_In in H. tauto. }
  split; [| split].
  - intros e [He | He]; apply Hev.
    + left. now apply Hsub.
    + right. apply filter_In in He. tauto.
  - intros k info. destruct Hst as [-> | ->]; [apply Hinfo |].
    unfold getTabInfo, markEventsSynced. cbn [getData setData tabInfo].
    apply Hinfo.
  - destruct Hst as [-> | ->]; [exact Hcap |].
    unfold getPendingEvents, markEventsSynced in *.
    cbn [getData setData events].
    pose proof (filter_length_le
                  (fun event => negb (Js.includes ids (localId event)))
                  (events (getData (storage s)))).
    lia.
Qed.

Lemma step_sound (st : Step) (s : System) :
  sound redact s -> sound redact (step redact st s).
Proof.
  intros Hs. destruct st as [a f | net now]; cbn [step].
  - destruct a as [tab | cu ct tab | tab | tabId wId shown | focused tabs];
      cbn [listen].
    + now apply handleTabEvent_sound.
    + destruct (Js.truthy_opt cu || Js.truthy_opt ct);
        [now apply handleTabEvent_sound | exact Hs].
    + now apply handleTabEvent_sound.
    + now apply handleTabClose_sound.
    + destruct (Z.eqb focused WINDOW_ID_NONE); [exact Hs |].
      destruct tabs as [| tab rest]; [exact Hs | now apply handleTabEvent_sound].
  - now apply syncPendingEvents_sound.
Qed.

(** X13: from an empty store and an empty queue, whatever browser events
    and sync cycles follow, every pending and every queued event has a
    non-empty title and a URL that is empty or the redaction of a
    non-empty URL off the ignore list, every tab snapshot has a non-empty
    title and such a URL, non-empty, and the store holds at most 1000
    events. *)
Theorem run_sound (steps : list Step) (s : System) :
  storage s = None -> eventQueue (api s) = [] ->
  sound redact (run redact steps s).
Proof.
  intros Hstore Hqueue.
  assert (Hinit : sound redact s).
  { unfold sound, getPendingEvents, getTabInfo. rewrite Hstore, Hqueue.
    cbn [getData getDefaultData events tabInfo length].
    split; [intros e [[] | []] |].
    split; [| unfold MAX_LOCAL_EVENTS; lia].
    intros k info Hk. rewrite lookup_empty in Hk. discriminate Hk. }
  clear Hstore Hqueue. revert s Hinit. unfold run.
  induction steps as [| st steps IH]; intros s Hs; cbn [fold_left];
    [exact Hs |].
  apply IH. now apply step_sound.
Qed.

Lemma record_pending (event : Event) (forget : option Z) (f : Fresh)
    (s : System) :
  exists kept,
    getPendingEvents (storage (fst (record event forget f s)))
    = kept ++ [mkLocalEvent (storeId f) event].
Proof.
  unfold record, queueEvent. cbn [fst storage].
  assert (Hpending :
    getPendingEvents
      match forget with
      | Some tabId => removeTabInfo tabId (storeEvent event (storeId f) (storage s))
      | None => storeEvent event (storeId f) (storage s)
      end
    = getPendingEvents (storeEvent event (storeId f) (storage s))).
  { destruct forget; reflexivity. }
  rewrite Hpending, storeEvent_pending. apply slice_last_snoc.
  unfold MAX_LOCAL_EVENTS. lia.
Qed.

(** X14: when a tab event was captured and the tab is closed next, the
    close event carries the title and the redacted URL of the captured
    event, and the snapshot of the tab is gone; a second close of the
    same tab id is recorded as 'Closed Tab' with an empty URL. *)
Theorem close_after_capture (tab : Tab) (eventType : EventType)
    (f1 f2 f3 : Fresh) (s : System) (tabId w : Z) (u : string) :
  id tab = Some tabId -> tab_url tab = Some u ->
  Js.truthy_num tabId = true -> Js.truthy_string u = true ->
  Js.truthy_num (windowId tab) = true ->
  Url.shouldIgnoreUrl u = false ->
  Js.truthy_string (redact u) = true ->
  let s1 := fst (handleTabEvent redact tab eventType f1 s) in
  let s2 := fst (handleTabClose tabId w f2 s1) in
  let s3 := fst (handleTabClose tabId w f3 s2) in
  (exists kept,
     getPendingEvents (storage s2)
     = kept ++ [mkLocalEvent (storeId f2)
                  {| window_id := w; tab_id := tabId; type := EvClose;
                     title := Js.or_string (tab_title tab) "Untitled";
                     url := redact u; ts := now f2 |}])
  /\ getTabInfo tabId (storage s2) = None
  /\ (exists kept,
        getPendingEvents (storage s3)
        = kept ++ [mkLocalEvent (storeId f3)
                     {| window_id := w; tab_id := tabId; type := EvClose;
                        title := "Closed Tab"; url := EmptyString;
                        ts := now f3 |}]).
Proof.
  intros Hid Hurl Htab Hu Hwin Hkeep Hred. cbn zeta.
  assert (Htitle : Js.truthy_string (Js.or_string (tab_title tab) "Untitled")
                   = true) by now apply or_string_truthy.
  assert (Hsnap :
    getTabInfo tabId
      (storage (fst (handleTabEvent redact tab eventType f1 s)))
    = Some {| ti_title := Js.or_string (tab_title tab) "Untitled";
              ti_url := redact u; lastSeen := now f1 |}).
  { unfold handleTabEvent. rewrite Hid, Hurl, Htab, Hu, Hwin, Hkeep.
    cbn [negb orb]. unfold record, queueEvent. cbn [fst storage].
    now apply (storeEvent_snapshot_hit
                 {| window_id := windowId tab; tab_id := tabId;
                    type := eventType;
                    title := Js.or_string (tab_title tab) "Untitled";
                    url := redact u; ts := now f1 |}). }
  assert (Hgone : forall f' s',
            getTabInfo tabId (storage (fst (handleTabClose tabId w f' s')))
            = None).
  { intros f' s'. unfold handleTabClose, record, queueEvent.
    cbn [fst storage]. unfold getTabInfo, removeTabInfo.
    cbn [getData setData tabInfo]. apply lookup_delete_eq. }
  split; [| split].
  - unfold handleTabClose at 1. rewrite Hsnap.
    cbn [option_map ti_title ti_url Js.or_string]. rewrite Htitle, Hred.
    apply record_pending.
  - apply Hgone.
  - unfold handleTabClose at 1. rewrite Hgone.
    cbn [option_map Js.or_string]. apply record_pending.
Qed.

End RunFacts.

Lemma run_sound_witness :
  Extension.sound (fun u => u)
    (Extension.run (fun u => u)
       [ Extension.Capture (TabEventHandler.Created Samples.exampleTab) Samples.fresh1;
         Extension.Capture (TabEventHandler.Removed 7 1 "https://example.com/") Samples.fresh1;
         Extension.Sync Samples.allAccepted 2000 ]
       Samples.freshSystem).
Proof.
  apply (run_sound (fun u => u)
           [ Extension.Capture (TabEventHandler.Created Samples.exampleTab) Samples.fresh1;
             Extension.Capture (TabEventHandler.Removed 7 1 "https://example.com/") Samples.fresh1;
             Extension.Sync Samples.allAccepted 2000 ]
           Samples.freshSystem); reflexivity.
Defined.

Lemma close_after_capture_witness :
  let s1 := fst (TabEventHandler.handleTabEvent (fun u => u) Samples.exampleTab
                   Types.EvOpen Samples.fresh1 Samples.freshSystem) in
  let s2 := fst (TabEventHandler.handleTabClose 7 1 Samples.fresh1 s1) in
  let s3 := fst (TabEventHandler.handleTabClose 7 1 Samples.fresh1 s2) in
  (exists kept,
     StorageManager.getPendingEvents (ApiClient.storage s2)
     = kept ++ [Types.mkLocalEvent "local_1000_aaa"
                  {| Types.window_id := 1; Types.tab_id := 7;
                     Types.type := Types.EvClose;
                     Types.title := "Example";
                     Types.url := "https://example.com/";
                     Types.ts := 1000 |}])
  /\ StorageManager.getTabInfo 7 (ApiClient.storage s2) = None
  /\ (exists kept,
        StorageManager.getPendingEvents (ApiClient.storage s3)
        = kept ++ [Types.mkLocalEvent "local_1000_aaa"
                     {| Types.window_id := 1; Types.tab_id := 7;
                        Types.type := Types.EvClose;
                        Types.title := "Closed Tab";
                        Types.url := EmptyString;
                        Types.ts := 1000 |}]).
Proof.
  apply (close_after_capture (fun u => u) Samples.exampleTab Types.EvOpen
           Samples.fresh1 Samples.fresh1 Samples.fresh1 Samples.freshSystem
           7 1 "https://example.com/"); reflexivity.
Defined.

(** ** Authentication middleware and error handler *)

Section MiddlewareFacts.
Import Api Middleware.

Variable verify : string -> string -> Verified.

(** The conditions under which a request is authenticated as [userId]. *)
Lemma authMiddleware_ok (env : ProcessEnv) (authHeader : option string)
    (userId : string) :
  authMiddleware verify env authHeader = NextOk userId <->
  exists header secret,
    authHeader = Some header
    /\ Js.startsWith header "Bearer " = true
    /\ JWT_SECRET env = Some secret
    /\ Js.truthy_string secret = true
    /\ verify (String.substring 7 (String.length header - 7) header) secret
       = Decoded (Some userId)
    /\ Js.truthy_string userId = true.
Proof.
  unfold authMiddleware. split.
  - destruct authHeader as [header |]; [| discriminate].
    destruct (Js.truthy_string header) eqn:Hh; cbn [negb orb]; [| discriminate].
    destruct (Js.startsWith header "Bearer ") eqn:Hb; cbn [negb];
      [| discriminate].
    destruct (JWT_SECRET env) as [secret |]; [| discriminate].
    destruct (Js.truthy_string secret) eqn:Hs; cbn [negb]; [| discriminate].
    destruct (verify _ secret) as [[uid |] | [] []] eqn:Hv; try discriminate.
    destruct (Js.truthy_string uid) eqn:Hu; [| discriminate].
    intros [= <-]. exists header, secret. repeat split; assumption.
  - intros [header [secret [-> [Hb [Hs [Hts [Hv Hu]]]]]]].
    assert (Hh : Js.truthy_string header = true).
    { destruct header; [discriminate Hb | reflexivity]. }
    rewrite Hh, Hb, Hs, Hts. cbn [negb orb]. rewrite Hv, Hu. reflexivity.
Qed.

(** X15: the middleware lets a request through as user [userId] exactly
    when the header is "Bearer " followed by a token, a signing secret is
    configured, and [jwt.verify] decodes the token under that secret to
    a payload with that non-empty user id; in every other case it hands
    an error to [next]. *)
Theorem authMiddleware_sound (env : ProcessEnv) (authHeader : option string) :
  (forall userId,
     authMiddleware verify env authHeader = NextOk userId <->
     exists header secret,
       authHeader = Some header
       /\ Js.startsWith header "Bearer " = true
       /\ JWT_SECRET env = Some secret
       /\ Js.truthy_string secret = true
       /\ verify (String.substring 7 (String.length header - 7) header) secret
          = Decoded (Some userId)
       /\ Js.truthy_string userId = true)
  /\ (authHeader = None ->
      authMiddleware verify env authHeader
      = NextError (ThrownApp (mkAppError "Access token required" 401 true))).
Proof.
  split; [intros userId; apply authMiddleware_ok |].
  intros ->. reflexivity.
Qed.

(** X16: the optional middleware never reports an error, and it puts a
    user id on the request in exactly the cases in which the mandatory
    middleware accepts the request as that user. *)
Theorem optionalAuthMiddleware_agrees (env : ProcessEnv)
    (authHeader : option string) (userId : string) :
  optionalAuthMiddleware verify env authHeader = Some userId <->
  authMiddleware verify env authHeader = NextOk userId.
Proof.
  unfold optionalAuthMiddleware, authMiddleware.
  destruct authHeader as [header |]; [| split; discriminate].
  destruct (negb (Js.truthy_string header)
            || negb (Js.startsWith header "Bearer ")); [split; discriminate |].
  destruct (JWT_SECRET env) as [secret |]; [| split; discriminate].
  destruct (negb (Js.truthy_string secret)); [split; discriminate |].
  destruct (verify _ secret) as [[uid |] | [] []]; try (split; discriminate).
  destruct (Js.truthy_string uid); split; congruence.
Qed.

(** X17: the error handler answers with the status code of the error, or
    500 when it has none; outside development an error that is not
    marked operational is answered with "Internal server error" and
    without a stack, never with its own message; an operational error is
    answered with its message. *)
Theorem errorHandler_reply (nodeEnv : option string) (err : ApiError) :
  status (errorHandler nodeEnv err)
  = match err_statusCode err with Some code => code | None => 500%Z end
  /\ (err_isOperational err <> Some true -> nodeEnv <> Some "development" ->
      error (errorHandler nodeEnv err) = "Internal server error"
      /\ withStack (errorHandler nodeEnv err) = false)
  /\ (err_isOperational err = Some true ->
      error (errorHandler nodeEnv err) = err_message err).
Proof.
  unfold errorHandler. cbn [status error withStack].
  split; [reflexivity |]. split.
  - intros Hop Hdev.
    assert (Hnd : isDevelopment nodeEnv = false).
    { unfold isDevelopment. destruct nodeEnv as [v |]; [| reflexivity].
      destruct (String.eqb_spec v "development"); [congruence | reflexivity]. }
    rewrite Hnd. destruct (err_isOperational err) as [[] |];
      [congruence | now split | now split].
  - intros ->. reflexivity.
Qed.

(** X18: with no signing secret configured and outside development, a
    request with a bearer token is answered with status 500 and the text
    "Internal server error": the middleware's own message is not sent. *)
Theorem missing_secret_reply (env : ProcessEnv) (header : string)
    (nodeEnv : option string) :
  Js.startsWith header "Bearer " = true ->
  Js.truthy_opt (JWT_SECRET env) = false ->
  nodeEnv <> Some "development" ->
  exists thrown err,
    authMiddleware verify env (Some header) = NextError thrown
    /\ apiErrorOf thrown = Some err
    /\ errorHandler nodeEnv err
       = {| status := 500; error := "Internal server error";
            withStack := false |}.
Proof.
  intros Hbearer Hmissing Hdev.
  exists (ThrownApp (mkAppError "JWT secret not configured" 500 false)).
  eexists. split; [| split; [reflexivity |]].
  - unfold authMiddleware. rewrite Hbearer.
    assert (Hne : Js.truthy_string header = true).
    { destruct header; [discriminate Hbearer | reflexivity]. }
    rewrite Hne. cbn [negb orb].
    destruct (JWT_SECRET env) as [secret |]; [| reflexivity].
    cbn in Hmissing. now rewrite Hmissing.
  - unfold errorHandler. cbn.
    assert (Hnd : isDevelopment nodeEnv = false).
    { unfold isDevelopment. destruct nodeEnv as [v |]; [| reflexivity].
      destruct (String.eqb_spec v "development"); [congruence | reflexivity]. }
    now rewrite Hnd.
Qed.

End MiddlewareFacts.

Lemma missing_secret_reply_witness :
  exists thrown err,
    Api.authMiddleware (fun _ _ => Api.Decoded None) Samples.envWithoutJwtSecret
      (Some "Bearer abc") = Api.NextError thrown
    /\ Middleware.apiErrorOf thrown = Some err
    /\ Middleware.errorHandler (Some "production") err
       = {| Middleware.status := 500;
            Middleware.error := "Internal server error";
            Middleware.withStack := false |}.
Proof.
  apply (missing_secret_reply (fun _ _ => Api.Decoded None)
           Samples.envWithoutJwtSecret "Bearer abc" (Some "production")).
  - reflexivity.
  - reflexivity.
  - discriminate.
Defined.

(** ** The mock database and the authentication routes *)

Section MockFacts.
Import Api Mock.

Variable userUuid : nat -> string.
Variable eventUuid : nat -> string.
Variable now : Z.
Variable hash : string -> string.
Variable compare : string -> string -> bool.
Variable signAccess : string -> string -> string.
Variable signRefresh : string -> string -> string.
Variable lowerEmail : string -> string.
Variable jwtSecret : option string.
Variable refreshSecret : option string.
Variable Body : Type.
Variable loginSchema : Body -> string + (string * string).
Variable registerSchema : Body -> string + (string * string).

Lemma strictEq_string (v : Value) (s : string) :
  strictEq v (VString s) = true <-> v = VString s.
Proof.
  destruct v as [x | z | d |]; cbn; try (split; discriminate).
  rewrite String.eqb_eq. split; congruence.
Qed.

Lemma find_app_none {A} (f : A -> bool) (l r : list A) :
  List.find f l = None -> List.find f (l ++ r) = List.find f r.
Proof.
  induction l as [| a l IH]; cbn; [reflexivity |].
  destruct (f a); [discriminate | exact IH].
Qed.

Lemma find_exists {A} (f : A -> bool) (l : list A) (a : A) :
  In a l -> f a = true -> exists b, List.find f l = Some b.
Proof.
  intros Hin Hf. destruct (List.find f l) as [b |] eqn:Hfind; [now exists b |].
  rewrite (find_none f l Hfind a Hin) in Hf. discriminate Hf.
Qed.

Lemma NoDup_snoc {A} (l : list A) (x : A) :
  List.NoDup l -> ~ In x l -> List.NoDup (l ++ [x]).
Proof.
  induction l as [| a l IH]; cbn; intros Hl Hx.
  - constructor; [intros [] | constructor].
  - inversion Hl as [| a' l' Ha Hl' Heq]; subst. constructor.
    + intros Hin. apply in_app_or in Hin. destruct Hin as [Hin | [-> | []]].
      * now apply Ha.
      * apply Hx. now left.
    + apply IH; [exact Hl' |]. intros Hin. apply Hx. now right.
Qed.

(** X19: on a users table whose e-mail addresses are distinct strings,
    [insertUser] keeps them so; it throws "User already exists" exactly
    when the address is already there, and then changes nothing;
    afterwards [findUserByEmail] finds a user with that address. *)
Theorem insertUser_distinct (e : string) (h : Value) (t : Tables) :
  distinctEmails t ->
  let result := insertUser userUuid now [VString e; h] t in
  distinctEmails (snd result)
  /\ (fst result = inl (ThrownError "User already exists") <->
      In (VString e) (map email (users t)))
  /\ (In (VString e) (map email (users t)) -> snd result = t)
  /\ exists u,
       findUserByEmail [VString e] (snd result) = (inr (UserRows [u]), snd result)
       /\ email u = VString e.
Proof.
  clear eventUuid hash compare signAccess signRefresh lowerEmail jwtSecret
    refreshSecret loginSchema registerSchema Body.
  intros [Hnodup Hstrings]. cbn zeta. unfold insertUser, findUserByEmail.
  cbn [length Nat.ltb Nat.leb nth_param nth email].
  destruct (List.find (fun u => strictEq (email u) (VString e)) (users t))
    as [u0 |] eqn:Hfind.
  - apply find_some in Hfind. destruct Hfind as [Hin Heq].
    apply strictEq_string in Heq. cbn [fst snd].
    assert (Hmem : In (VString e) (map email (users t))).
    { rewrite <- Heq. now apply in_map. }
    split; [now split |]. split; [tauto |]. split; [reflexivity |].
    destruct (find_exists (fun u => strictEq (email u) (VString e))
                (users t) u0 Hin) as [b Hb].
    { now apply strictEq_string. }
    rewrite Hb. exists b. split; [reflexivity |].
    apply find_some in Hb. now apply strictEq_string.
  - cbn [fst snd users].
    assert (Hfresh : ~ In (VString e) (map email (users t))).
    { intros Hmem. apply in_map_iff in Hmem. destruct Hmem as [u [Hu Hin]].
      pose proof (find_none _ _ Hfind u Hin) as Hno. cbn beta in Hno.
      rewrite Hu in Hno. cbn in Hno. now rewrite String.eqb_refl in Hno. }
    split; [| split; [| split]].
    + unfold distinctEmails. cbn [users]. split.
      * rewrite map_app. cbn [map email]. now apply NoDup_snoc.
      * intros u Hu. apply in_app_or in Hu. destruct Hu as [Hu | [<- | []]].
        -- now apply Hstrings.
        -- now exists e.
    + split; [discriminate | intros Hmem; now destruct Hfresh].
    + intros Hmem. now destruct Hfresh.
    + rewrite find_app_none by exact Hfind. cbn [List.find email].
      cbn [strictEq]. rewrite String.eqb_refl. eexists. split; reflexivity.
Qed.

(** None of the six patterns of [executeQuery] occurs in the statement of
    the login route. *)
Lemma loginQuery_unhandled (params : list Value) (t : Tables) :
  query userUuid eventUuid now loginQuery params t = (inr NoRows, t).
Proof.
  unfold query, executeQuery.
  assert (Hnone :
    forall pattern,
      In pattern
        [ "insert into users"; "select * from users where email";
          "insert into events"; "select count(*) from events";
          "select * from sessions"; "select * from users where id" ] ->
      Mock.includes (toLowerCase (trim loginQuery)) pattern = false).
  { intros pattern Hp. cbn in Hp.
    repeat (destruct Hp as [<- | Hp]; [vm_compute; reflexivity |]).
    contradiction. }
  cbn zeta. rewrite !Hnone by (cbn; tauto). reflexivity.
Qed.

(** X20: when the pg server is down and [db.query] falls back to the mock
    database, the statement of the login route is not one the mock
    database knows: whatever users are registered, a body that the
    schema refuses is answered with 400 "Invalid request body: " and the
    detail, every other body with 401 "Invalid email or password", and
    nothing is changed. *)
Theorem login_on_mock_is_refused (body : Body) (t : Tables) :
  login userUuid eventUuid now compare signAccess signRefresh lowerEmail
    jwtSecret refreshSecret Body loginSchema body t
  = (AuthError
       (match loginSchema body with
        | inl detail =>
            ThrownApp
              (mkAppError ("Invalid request body: " ++ detail) 400 true)
        | inr _ => ThrownApp (mkAppError "Invalid email or password" 401 true)
        end), t).
Proof.
  unfold login. destruct (loginSchema body) as [detail | [emailField password]].
  - reflexivity.
  - unfold loginHandler. rewrite loginQuery_unhandled.
    cbn [rowsLength Nat.eqb]. reflexivity.
Qed.

(** X21: a body that the schema refuses is answered with 400 "Invalid
    request body: " and the detail, and nothing is changed.  For a
    validated body, on the mock database the lookup of the register
    route finds nothing, so an address that is already registered is not
    answered with the route's 409: [insertUser] throws a plain error and
    the users are left as they were; a new address is stored, lower-cased
    and with the hashed password, as a further user. *)
Theorem register_on_mock (body : Body) (t : Tables) :
  distinctEmails t ->
  let result :=
    register userUuid eventUuid now hash signAccess signRefresh lowerEmail
      jwtSecret refreshSecret Body registerSchema body t in
  match registerSchema body with
  | inl detail =>
      result
      = (AuthError
           (ThrownApp
              (mkAppError ("Invalid request body: " ++ detail) 400 true)), t)
  | inr (emailField, password) =>
      (In (VString (lowerEmail emailField)) (map email (users t)) ->
       result = (AuthError (ThrownError "User already exists"), t))
      /\ (~ In (VString (lowerEmail emailField)) (map email (users t)) ->
          users (snd result)
          = users t
            ++ [{| id := userUuid (length (users t));
                   email := VString (lowerEmail emailField);
                   password_hash := VString (hash password);
                   created_at := now |}]
          /\ store (snd result) = store t)
  end.
Proof.
  intros [Hnodup Hstrings]. cbn zeta. unfold register.
  destruct (registerSchema body) as [detail | [emailField password]];
    [reflexivity |].
  unfold registerHandler.
  change (query userUuid eventUuid now existingUserQuery
            [VString (lowerEmail emailField)] t) with (@inr Thrown Rows NoRows, t).
  cbn [rowsLength Nat.ltb Nat.leb].
  change (query userUuid eventUuid now createUserQuery
            [VString (lowerEmail emailField); VString (hash password)] t)
    with (insertUser userUuid now
            [VString (lowerEmail emailField); VString (hash password)] t).
  unfold insertUser. cbn [length Nat.ltb Nat.leb nth_param nth email].
  destruct (List.find
              (fun u => strictEq (email u) (VString (lowerEmail emailField)))
              (users t)) as [u0 |] eqn:Hfind.
  - split; [reflexivity |]. intros Hfresh. exfalso. apply Hfresh.
    apply find_some in Hfind. destruct Hfind as [Hin Heq].
    apply strictEq_string in Heq. rewrite <- Heq. now apply in_map.
  - split.
    + intros Hmem. exfalso. apply in_map_iff in Hmem.
      destruct Hmem as [u [Hu Hin]].
      pose proof (find_none _ _ Hfind u Hin) as Hno. cbn beta in Hno.
      rewrite Hu in Hno. cbn in Hno. now rewrite String.eqb_refl in Hno.
    + intros _. unfold issueTokens.
      destruct (generateAccessToken signAccess jwtSecret _) as [e1 | a];
        [split; reflexivity |].
      destruct (generateRefreshToken signRefresh refreshSecret _) as [e2 | r];
        split; reflexivity.
Qed.

End MockFacts.

Lemma oneUser_distinct : Mock.distinctEmails Samples.oneUser.
Proof.
  split.
  - repeat constructor. intros [].
  - intros u [<- | []]. now eexists.
Qed.

Lemma insertUser_distinct_witness :
  let result :=
    Mock.insertUser Samples.sampleId 2000
      [Api.VString "ada@example.com"; Api.VString "hash-1"] Samples.oneUser in
  Mock.distinctEmails (snd result)
  /\ (fst result = inl (Api.ThrownError "User already exists") <->
      In (Api.VString "ada@example.com")
        (map Mock.email (Mock.users Samples.oneUser)))
  /\ (In (Api.VString "ada@example.com")
        (map Mock.email (Mock.users Samples.oneUser)) ->
      snd result = Samples.oneUser)
  /\ exists u,
       Mock.findUserByEmail [Api.VString "ada@example.com"] (snd result)
       = (inr (Mock.UserRows [u]), snd result)
       /\ Mock.email u = Api.VString "ada@example.com".
Proof.
  apply (insertUser_distinct Samples.sampleId 2000 "ada@example.com"
           (Api.VString "hash-1") Samples.oneUser).
  exact oneUser_distinct.
Defined.

Lemma register_on_mock_witness :
  let result :=
    Mock.register Samples.sampleId Samples.sampleId 2000 (fun p => p)
      (fun uid _ => uid) (fun uid _ => uid) (fun e => e)
      (Some "secret") (Some "refresh") (string * string)
      Samples.passwordOfEight ("ada@example.com", "password")
      Samples.oneUser in
  match Samples.passwordOfEight ("ada@example.com", "password") with
  | inl detail =>
      result
      = (Mock.AuthError
           (Api.ThrownApp
              (Api.mkAppError ("Invalid request body: " ++ detail) 400 true)),
         Samples.oneUser)
  | inr (emailField, password) =>
      (In (Api.VString emailField)
         (map Mock.email (Mock.users Samples.oneUser)) ->
       result = (Mock.AuthError (Api.ThrownError "User already exists"),
                 Samples.oneUser))
      /\ (~ In (Api.VString emailField)
              (map Mock.email (Mock.users Samples.oneUser)) ->
          Mock.users (snd result)
          = Mock.users Samples.oneUser
            ++ [{| Mock.id := Samples.sampleId 1;
                   Mock.email := Api.VString emailField;
                   Mock.password_hash := Api.VString password;
                   Mock.created_at := 2000 |}]
          /\ Mock.store (snd result) = Mock.store Samples.oneUser)
  end.
Proof.
  apply (register_on_mock Samples.sampleId Samples.sampleId 2000 (fun p => p)
           (fun uid _ => uid) (fun uid _ => uid) (fun e => e)
           (Some "secret") (Some "refresh") (string * string)
           Samples.passwordOfEight ("ada@example.com", "password")
           Samples.oneUser).
  exact oneUser_distinct.
Defined.

(** ** More on the ingestion endpoint *)

Section IngestionFacts.
Import Api.

Variable pg_ok : nat -> bool.
Variable uuid : nat -> string.
Variable now : Z.
Variable batchEventsSchema : list EventInput -> option string.
Variable userId : string.

(** With the pg connection or the mock database the transaction always
    returns: a failure of the pg server is caught and the callback runs
    again on the mock database, where it cannot throw. *)
Lemma transaction_returns (conn : Connection) (events : list EventInput)
    (db : Db) :
  conn <> SupabaseConnection ->
  exists rows db',
    transaction pg_ok uuid now conn (insertAll pg_ok uuid now userId events) db
    = (inr rows, db').
Proof.
  intros Hconn. destruct conn; [| | congruence]; cbn [transaction].
  - unfold try_catch at 1.
    match goal with
    | |- context [bind ?m ?k db] => destruct (bind m k db) as [[e | rows] db1]
    end.
    + destruct (insertAll_mock pg_ok uuid now userId events db1)
        as [rows [Hrows _]].
      rewrite Hrows. now eexists _, _.
    + now eexists _, _.
  - destruct (insertAll_mock pg_ok uuid now userId events db)
      as [rows [Hrows _]].
    rewrite Hrows. now eexists _, _.
Qed.

(** X22: a body that the validation refuses is answered with the 400
    error "Invalid request body: " followed by the detail of the
    validation, and touches no store.  A validated batch, which the
    schema makes non-empty, is answered with success and the number of
    its events on the pg connection and on the mock database, whatever
    the pg server does; on the Supabase connection it is answered with
    an error and nothing is written. *)
Theorem postBatch_reply (conn : Connection) (events : list EventInput)
    (db : Db) :
  let result := postBatch pg_ok uuid now batchEventsSchema conn userId events db in
  (forall detail,
     batchEventsSchema events = Some detail ->
     result
     = (ReplyError
          (ThrownApp
             (mkAppError ("Invalid request body: " ++ detail) 400 true)), db))
  /\ (batchEventsSchema events = None -> events <> [] ->
      if match conn with SupabaseConnection => true | _ => false end
      then result = (ReplyError ThrownByLibrary, db)
      else fst result = ReplyOk (length events)).
Proof.
  cbn zeta. unfold postBatch. split.
  - intros detail ->. reflexivity.
  - intros -> Hne.
    destruct (Nat.eqb_spec (length events) 0) as [Hzero | _].
    { apply length_zero_iff_nil in Hzero. congruence. }
    destruct conn.
    + destruct (transaction_returns DatabaseConnection events db)
        as [rows [db' Hrun]]; [discriminate |].
      rewrite Hrun. cbn [fst]. f_equal.
      apply transaction_allOrNothing in Hrun.
      destruct Hrun as [[[e He] _] | [rows' [Hr [Hall _]]]]; [discriminate |].
      injection Hr as <-. symmetry. eapply Forall2_length. exact Hall.
    + destruct (transaction_returns MockDatabase events db)
        as [rows [db' Hrun]]; [discriminate |].
      rewrite Hrun. cbn [fst]. f_equal.
      apply transaction_allOrNothing in Hrun.
      destruct Hrun as [[[e He] _] | [rows' [Hr [Hall _]]]]; [discriminate |].
      injection Hr as <-. symmetry. eapply Forall2_length. exact Hall.
    + destruct events as [| event rest]; [congruence | reflexivity].
Qed.

End IngestionFacts.

(** ** Signing out *)

Section LogoutFacts.
Import Types StorageManager ApiClient ApiClientAuth.

(** X23: after [logout] the client holds no token, a sync cycle sends
    nothing and changes nothing, and the pending events, the queue and
    the tab snapshots are still there; the stored token is cleared when
    the client held a token and has the storage manager. *)
Theorem logout_then_sync (net : Network) (now : Z) (s : System) :
  let s' := logout s in
  syncPendingEvents net now s' = (s', [])
  /\ getPendingEvents (storage s') = getPendingEvents (storage s)
  /\ eventQueue (api s') = eventQueue (api s)
  /\ tabInfo (getData (storage s')) = tabInfo (getData (storage s))
  /\ (Js.truthy_opt (ApiClient.authToken (api s)) = true ->
      storageManager (api s) = true ->
      StorageManager.authToken (getData (storage s')) = None).
Proof.
  cbn zeta. split.
  - unfold syncPendingEvents, logout. cbn [api setToken ApiClient.authToken].
    cbn [Js.truthy_opt negb]. now rewrite orb_true_r.
  - unfold logout. cbn [storage api setToken eventQueue].
    destruct (Js.truthy_opt (ApiClient.authToken (api s))
              && storageManager (api s)) eqn:Hclear.
    + repeat split.
    + repeat split. intros Htoken Hwith. rewrite Htoken, Hwith in Hclear.
      discriminate Hclear.
Qed.

End LogoutFacts.

(** ** Utility tabs and title domains *)

Section UtilityFacts.
Import UrlTabs.

Variable hostname : string -> option string.

Lemma length_append (a b : string) :
  String.length (a ++ b) = String.length a + String.length b.
Proof.
  induction a as [| c a IH]; [reflexivity |].
  rewrite append_cons. cbn [String.length]. now rewrite IH.
Qed.

Lemma substring_whole (b : string) :
  String.substring 0 (String.length b) b = b.
Proof. induction b as [| c b IH]; cbn; [reflexivity | now rewrite IH]. Qed.

Lemma substring_append (a b : string) :
  String.substring (String.length a) (String.length b) (a ++ b) = b.
Proof.
  induction a as [| c a IH]; [apply substring_whole |].
  rewrite append_cons. cbn [String.length String.substring]. exact IH.
Qed.

Lemma endsWith_append (a b : string) : endsWith (a ++ b) b = true.
Proof.
  unfold endsWith. rewrite length_append.
  destruct (Nat.leb_spec (String.length b)
              (String.length a + String.length b)) as [_ | Hlt]; [| lia].
  replace (String.length a + String.length b - String.length b)
    with (String.length a) by lia.
  rewrite substring_append. apply String.eqb_refl.
Qed.

(** X24: a URL whose host is one of the utility domains, or any
    subdomain of one, is a utility tab whatever its title; a URL that
    does not parse, or has an empty host, is not. *)
Theorem isUtilityTab_domains (url title domain sub : string) :
  In domain utilityDomains ->
  (hostname url = Some domain -> isUtilityTab hostname url title = true)
  /\ (hostname url = Some (sub ++ "." ++ domain)%string ->
      isUtilityTab hostname url title = true)
  /\ (hostname url = None \/ hostname url = Some EmptyString ->
      isUtilityTab hostname url title = false).
Proof.
  intros Hin. unfold isUtilityTab, extractDomain. split; [| split].
  - intros ->.
    assert (Hne : Js.truthy_string domain = true).
    { cbn in Hin. repeat (destruct Hin as [<- | Hin]; [reflexivity |]).
      contradiction. }
    rewrite Hne. cbn [negb]. apply existsb_exists. exists domain.
    split; [exact Hin |]. now rewrite String.eqb_refl.
  - intros ->.
    assert (Hne : Js.truthy_string (sub ++ "." ++ domain)%string = true).
    { destruct sub; reflexivity. }
    rewrite Hne. cbn [negb]. apply existsb_exists. exists domain.
    split; [exact Hin |]. rewrite endsWith_append. apply orb_true_r.
  - intros [-> | ->]; reflexivity.
Qed.

End UtilityFacts.

Lemma isUtilityTab_domains_witness :
  let hostname := fun _ : string => Some "app.slack.com" in
  (hostname "https://app.slack.com/x" = Some "slack.com" ->
   UrlTabs.isUtilityTab hostname "https://app.slack.com/x" "Slack" = true)
  /\ (hostname "https://app.slack.com/x"
      = Some ("app" ++ "." ++ "slack.com")%string ->
      UrlTabs.isUtilityTab hostname "https://app.slack.com/x" "Slack" = true)
  /\ (hostname "https://app.slack.com/x" = None
      \/ hostname "https://app.slack.com/x" = Some EmptyString ->
      UrlTabs.isUtilityTab hostname "https://app.slack.com/x" "Slack" = false).
Proof.
  apply (isUtilityTab_domains (fun _ : string => Some "app.slack.com")
           "https://app.slack.com/x" "Slack" "slack.com" "app").
  cbn. tauto.
Defined.

Section ProviderFacts.
Import Providers.

Variable toLowerCase : string -> string.

Lemma add_In (label x : string) (domains : list string) :
  In x (add label domains) <-> In x domains \/ x = label.
Proof.
  unfold add. destruct (Js.includes domains label) eqn:Hinc.
  - apply includes_In in Hinc. split; [now left |].
    intros [H | ->]; assumption.
  - rewrite in_app_iff. cbn. split; intros [H | H]; auto.
    + destruct H as [<- | []]. now right.
Qed.

Lemma add_NoDup (label : string) (domains : list string) :
  List.NoDup domains -> List.NoDup (add label domains).
Proof.
  intros Hnd. unfold add. destruct (Js.includes domains label) eqn:Hinc;
    [exact Hnd |].
  apply NoDup_snoc; [exact Hnd |]. now apply includes_false.
Qed.

(** What [addIf] keeps: no label twice, and only labels of the list. *)
Lemma addIf_keeps (hit : bool) (label : string) (domains : list string) :
  In label labels ->
  List.NoDup domains /\ incl domains labels ->
  List.NoDup (addIf hit label domains) /\ incl (addIf hit label domains) labels.
Proof.
  intros Hlabel [Hnd Hincl]. unfold addIf. destruct hit; [| now split].
  split; [now apply add_NoDup |].
  intros x Hx. apply add_In in Hx. destruct Hx as [Hx | ->]; auto.
Qed.

Lemma scanTitle_keeps (domains : list string) (title : string) :
  List.NoDup domains /\ incl domains labels ->
  List.NoDup (scanTitle toLowerCase domains title)
  /\ incl (scanTitle toLowerCase domains title) labels.
Proof.
  intros H. unfold scanTitle. cbn zeta.
  repeat (apply addIf_keeps; [cbn; tauto |]). exact H.
Qed.

Lemma scanTitle_grows (domains : list string) (title x : string) :
  In x domains -> In x (scanTitle toLowerCase domains title).
Proof.
  intros Hx. unfold scanTitle. cbn zeta.
  assert (Hstep : forall hit label d, In x d -> In x (addIf hit label d)).
  { intros hit label d Hd. unfold addIf. destruct hit; [| exact Hd].
    apply add_In. now left. }
  repeat apply Hstep. exact Hx.
Qed.

(** X25: [extractDomains] returns each label at most once and only labels
    among the eight, so at most eight of them; and the labels found for
    some titles are still found when further titles follow. *)
Theorem extractDomains_labels (titles more : list string) :
  List.NoDup (extractDomains toLowerCase titles)
  /\ incl (extractDomains toLowerCase titles) labels
  /\ length (extractDomains toLowerCase titles) <= 8
  /\ incl (extractDomains toLowerCase titles)
       (extractDomains toLowerCase (titles ++ more)).
Proof.
  assert (Hkeep : forall ts d,
            List.NoDup d /\ incl d labels ->
            List.NoDup (fold_left (scanTitle toLowerCase) ts d)
            /\ incl (fold_left (scanTitle toLowerCase) ts d) labels).
  { induction ts as [| t ts IH]; intros d Hd; cbn [fold_left]; [exact Hd |].
    apply IH. now apply scanTitle_keeps. }
  assert (Hgrow : forall ts d x,
            In x d -> In x (fold_left (scanTitle toLowerCase) ts d)).
  { induction ts as [| t ts IH]; intros d x Hx; cbn [fold_left]; [exact Hx |].
    apply IH. now apply scanTitle_grows. }
  destruct (Hkeep titles []) as [Hnd Hincl].
  { split; [constructor | intros x []]. }
  unfold extractDomains. split; [exact Hnd |]. split; [exact Hincl |].
  split.
  - apply (List.NoDup_incl_length Hnd Hincl).
  - intros x Hx. rewrite fold_left_app. now apply Hgrow.
Qed.

End ProviderFacts.
